(** * yolo-cls: the closeable queue and the classification pipeline

    A shallow embedding of the parts of yolo-cls that carry its
    pipeline: [tsqueue] (src/tsqueue.h, src/tsqueue.cpp), the thread
    functions and the argument parser of src/utils.cpp, the top-k loop of
    [yolo::predict] (src/yolo.cpp) and the orchestration in [main]
    (src/yolo-cls.cpp).

    Conventions.
    - A [std::queue<std::string>] is a [list string], front first.
    - Every member function of [tsqueue] runs its body under the one
      mutex of the object, so a call is one atomic transition of the queue
      state.  [cv.wait(lock, pred)] returns only with [pred] true and the
      lock held; a call whose predicate is false is parked, which [pop]
      reports as [Waiting] and leaves the state untouched.
    - Machine integers are [Z] with the conversions written out. *)

From Stdlib Require Import String Ascii DecimalString.
From Stdlib Require Import ZArith Bool Arith Lia List Permutation.
Import ListNotations.

Local Open Scope list_scope.

(* ------------------------------------------------------------------ *)
(** ** tsqueue *)

Module TSQueue.

(** The two data members that carry state: [queue] and [done].  The mutex
    and the condition variable are accounted for by atomicity of the
    operations and by [Waiting]. *)
Record tsqueue : Type := mk_tsqueue {
  queue : list string;
  done : bool
}.

(** A default-constructed [tsqueue]: empty, [done = false]. *)
Definition fresh : tsqueue := {| queue := []; done := false |}.

(** [tsqueue::push]: [queue.push(value)] under the lock, nothing else. *)
Definition push (value : string) (q : tsqueue) : tsqueue :=
  {| queue := queue q ++ [value]; done := done q |}.

(** [tsqueue::close]: [done = true] under the lock. *)
Definition close (q : tsqueue) : tsqueue :=
  {| queue := queue q; done := true |}.

(** [queue.empty()]. *)
Definition empty (l : list string) : bool :=
  match l with [] => true | _ :: _ => false end.

(** The predicate handed to [cv.wait]: [!queue.empty() || done]. *)
Definition wait_predicate (q : tsqueue) : bool :=
  negb (empty (queue q)) || done q.

Inductive pop_result : Type :=
| Waiting
| Popped (value : option string) (q' : tsqueue).

(** [tsqueue::pop]: once the wait predicate holds, [std::nullopt] on an
    empty queue, otherwise the front element, which is removed. *)
Definition pop (q : tsqueue) : pop_result :=
  if wait_predicate q then
    match queue q with
    | [] => Popped None q
    | value :: rest => Popped (Some value) {| queue := rest; done := done q |}
    end
  else Waiting.

Arguments pop : simpl never.

(** [n] successive [pop] calls of one thread with nobody else touching the
    queue; [None] when one of them would stay parked. *)
Fixpoint pop_seq (n : nat) (q : tsqueue) : option (list (option string) * tsqueue) :=
  match n with
  | O => Some ([], q)
  | S k =>
      match pop q with
      | Waiting => None
      | Popped v q' =>
          match pop_seq k q' with
          | None => None
          | Some (vs, q'') => Some (v :: vs, q'')
          end
      end
  end.

(** One producer pushing [xs] in order. *)
Definition push_all (xs : list string) (q : tsqueue) : tsqueue :=
  fold_left (fun acc x => push x acc) xs q.

(** [close()] called [n] times. *)
Definition close_n (n : nat) (q : tsqueue) : tsqueue := Nat.iter n close q.

(** *** Schedules

    Calls issued by any number of threads, in the order in which they win
    the mutex.  The log keeps, per call, the calling thread and what the
    call did. *)
Inductive call : Type :=
| CPush (tid : nat) (value : string)
| CPop (tid : nat)
| CClose (tid : nat).

Inductive record : Type :=
| RPushed (tid : nat) (value : string)
| RPopped (tid : nat) (value : option string)
| RParked (tid : nat)
| RClosed (tid : nat).

Definition exec (c : call) (st : tsqueue * list record) : tsqueue * list record :=
  let (q, log) := st in
  match c with
  | CPush t v => (push v q, log ++ [RPushed t v])
  | CClose t => (close q, log ++ [RClosed t])
  | CPop t =>
      match pop q with
      | Waiting => (q, log ++ [RParked t])
      | Popped v q' => (q', log ++ [RPopped t v])
      end
  end.

Definition run (sched : list call) (st : tsqueue * list record) : tsqueue * list record :=
  fold_left (fun acc c => exec c acc) sched st.

(** Items accepted by [push], in order. *)
Fixpoint pushed (log : list record) : list string :=
  match log with
  | [] => []
  | RPushed _ v :: r => v :: pushed r
  | _ :: r => pushed r
  end.

(** Items handed out by [pop], in order, whoever the caller. *)
Fixpoint returned (log : list record) : list string :=
  match log with
  | [] => []
  | RPopped _ (Some v) :: r => v :: returned r
  | _ :: r => returned r
  end.

(** Calls that stayed parked. *)
Fixpoint parked (log : list record) : nat :=
  match log with
  | [] => 0
  | RParked _ :: r => S (parked r)
  | _ :: r => parked r
  end.

(** The bookkeeping invariant of the queue: the items handed out so far
    followed by the items still queued are the items pushed so far. *)
Definition conserved (st : tsqueue * list record) : Prop :=
  returned (snd st) ++ queue (fst st) = pushed (snd st).

End TSQueue.

(* ------------------------------------------------------------------ *)
(** ** yolo::predict, the top-k loop *)

Module Yolo.

(** An [int] converted to [size_t], as the comparison with
    [class_names.size()] and the subscript of the vector both do. *)
Definition to_size_t (i : Z) : Z := (i mod 2 ^ 64)%Z.

(** [std::to_string(int)]. *)
Definition to_string (i : Z) : string := NilZero.string_of_int (Z.to_int i).

(** What a computation over a [std::vector] gives: a value, or a subscript
    past the end (undefined behaviour in the program; [operator[]] checks
    nothing). *)
Inductive access (A : Type) : Type :=
| Value (a : A)
| PastTheEnd (index size : Z).
Arguments Value {A} a.
Arguments PastTheEnd {A} index size.

(** [v[i]] for a [std::vector<std::string>]. *)
Definition subscript (v : list string) (i : Z) : access string :=
  match nth_error v (Z.to_nat (to_size_t i)) with
  | Some s => Value s
  | None => PastTheEnd (to_size_t i) (Z.of_nat (length v))
  end.

Section Predict.

(** [float]; the loop only copies confidences. *)
Variable score : Type.

Record prediction : Type := mk_prediction {
  class_name : string;
  confidence : score
}.

(** The test [class_index <= class_names.size()] of the loop. *)
Definition bound_check (class_names : list string) (class_index : Z) : bool :=
  (to_size_t class_index <=? Z.of_nat (length class_names))%Z.

(** The pairs (index, score) built before the sort. *)
Definition index_scores (scores : list score) : list (Z * score) :=
  combine (map Z.of_nat (seq 0 (length scores))) scores.

(** The body of the [for] loop over the first [count] sorted pairs. *)
Fixpoint top_k_loop (class_names : list string) (entries : list (Z * score))
         (top_predictions : list prediction) : access (list prediction) :=
  match entries with
  | [] => Value top_predictions
  | (class_index, conf) :: rest =>
      if bound_check class_names class_index then
        match subscript class_names class_index with
        | Value name =>
            top_k_loop class_names rest (top_predictions ++ [mk_prediction name conf])
        | PastTheEnd i n => PastTheEnd i n
        end
      else
        top_k_loop class_names rest
          (top_predictions
             ++ [mk_prediction (String.append "class_" (to_string class_index)) conf])
  end.

(** Lines 347-358 of [yolo::predict]: [count = min(top_k, size)], then the
    loop.  [indexed_scores] is the vector after [std::sort]; [top_k] is a
    [size_t]. *)
Definition top_predictions (class_names : list string) (top_k : Z)
           (indexed_scores : list (Z * score)) : access (list prediction) :=
  let count := Z.min top_k (Z.of_nat (length indexed_scores)) in
  top_k_loop class_names (firstn (Z.to_nat count) indexed_scores) [].

End Predict.

Arguments mk_prediction {score} _ _.
Arguments class_name {score} _.
Arguments confidence {score} _.
Arguments top_k_loop {score} _ _ _.
Arguments top_predictions {score} _ _ _.
Arguments index_scores {score} _.

End Yolo.

(* ------------------------------------------------------------------ *)
(** ** utils: exceptions, strings and numbers *)

Module Utils.
Import TSQueue Yolo.

Infix "+++" := String.append (right associativity, at level 60).

(** The error codes the program builds a [filesystem_error] from. *)
Inductive errc : Type := no_such_file_or_directory | io_error.

(** The exceptions that reach a [catch(std::exception const &)] of the
    program.  [other_exception] stands for what a collaborator throws
    ([cv::Exception], [Ort::Exception]); it derives from [std::exception]
    too. *)
Inductive exception : Type :=
| invalid_argument (what_arg : string)
| out_of_range (what_arg : string)
| overflow_error (what_arg : string)
| runtime_error (what_arg : string)
| length_error (what_arg : string)
| filesystem_error (what_arg path1 : string) (ec : errc)
| other_exception (what_arg : string).

Definition errc_message (ec : errc) : string :=
  match ec with
  | no_such_file_or_directory => "No such file or directory"
  | io_error => "Input/output error"
  end.

(** [e.what()]; for [filesystem_error] the text libstdc++ composes. *)
Definition what (e : exception) : string :=
  match e with
  | invalid_argument w | out_of_range w | overflow_error w | runtime_error w
  | length_error w | other_exception w => w
  | filesystem_error w p ec =>
      "filesystem error: " +++ w +++ ": " +++ errc_message ec +++ " [" +++ p +++ "]"
  end.

Inductive result (A : Type) : Type :=
| Ok (a : A)
| Throw (e : exception).
Arguments Ok {A} a.
Arguments Throw {A} e.

Definition bind {A B : Type} (m : result A) (k : A -> result B) : result B :=
  match m with
  | Ok a => k a
  | Throw e => Throw e
  end.

Notation "x <- m ;; k" := (bind m (fun x => k))
  (at level 61, m at next level, right associativity).

(** [std::isspace], [std::tolower] and the digit test of
    [find_first_not_of("0123456789")], in the C locale. *)
Definition isspace (ch : ascii) : bool :=
  let n := nat_of_ascii ch in
  (n =? 32)%nat || ((9 <=? n)%nat && (n <=? 13)%nat).

Definition tolower (c : ascii) : ascii :=
  let n := nat_of_ascii c in
  if ((65 <=? n)%nat && (n <=? 90)%nat) then ascii_of_nat (n + 32) else c.

Definition isdigit (c : ascii) : bool :=
  let n := nat_of_ascii c in
  ((48 <=? n)%nat && (n <=? 57)%nat).

(** [std::transform(..., tolower)] over a string. *)
Fixpoint lowercase (s : string) : string :=
  match s with
  | EmptyString => EmptyString
  | String c r => String (tolower c) (lowercase r)
  end.

Fixpoint erase_leading_space (s : string) : string :=
  match s with
  | EmptyString => EmptyString
  | String c r => if isspace c then erase_leading_space r else s
  end.

Fixpoint erase_trailing_space (s : string) : string :=
  match s with
  | EmptyString => EmptyString
  | String c r =>
      match erase_trailing_space r with
      | EmptyString => if isspace c then EmptyString else String c EmptyString
      | r' => String c r'
      end
  end.

(** [s.substr(0, s.find_first_not_of("0123456789"))]. *)
Fixpoint leading_digits (s : string) : string :=
  match s with
  | EmptyString => EmptyString
  | String c r => if isdigit c then String c (leading_digits r) else EmptyString
  end.

(** [s.substr(s.find_first_not_of("0123456789"))], empty at [npos]. *)
Fixpoint after_digits (s : string) : string :=
  match s with
  | EmptyString => EmptyString
  | String c r => if isdigit c then after_digits r else s
  end.

Fixpoint digits_value (s : string) (acc : Z) : Z :=
  match s with
  | EmptyString => acc
  | String c r => digits_value r (10 * acc + (Z.of_nat (nat_of_ascii c) - 48))
  end.

Definition is_empty (s : string) : bool :=
  match s with EmptyString => true | String _ _ => false end.

(** Sign and digits as [strtol] and [strtoull] read them in base 10:
    leading white space, one optional sign, the longest run of digits. *)
Definition scan_integer (str : string) : bool * string :=
  match erase_leading_space str with
  | String "-"%char r => (true, leading_digits r)
  | String "+"%char r => (false, leading_digits r)
  | s => (false, leading_digits s)
  end.

(** [std::stoi(str)]. *)
Definition stoi (str : string) : result Z :=
  let (negative, digits) := scan_integer str in
  if is_empty digits then Throw (invalid_argument "stoi")
  else
    let v := if negative then (- digits_value digits 0)%Z else digits_value digits 0 in
    if ((v <? - 2 ^ 31) || (2 ^ 31 - 1 <? v))%Z then Throw (out_of_range "stoi")
    else Ok v.

(** [std::stoull(str)]. *)
Definition stoull (str : string) : result Z :=
  let (negative, digits) := scan_integer str in
  if is_empty digits then Throw (invalid_argument "stoull")
  else
    let v := digits_value digits 0 in
    if (2 ^ 64 - 1 <? v)%Z then Throw (out_of_range "stoull")
    else Ok (if negative then ((2 ^ 64 - v) mod 2 ^ 64)%Z else v).

(** The table [multipliers] of [string_unit_to_numeric]. *)
Definition multipliers : list (string * Z) :=
  [ ("b"%string, 1%Z);
    ("k"%string, 1024%Z);
    ("kb"%string, 1024%Z);
    ("m"%string, (1024 * 1024)%Z);
    ("mb"%string, (1024 * 1024)%Z);
    ("g"%string, (1024 * 1024 * 1024)%Z);
    ("gb"%string, (1024 * 1024 * 1024)%Z);
    ("t"%string, (1024 * 1024 * 1024 * 1024)%Z);
    ("tb"%string, (1024 * 1024 * 1024 * 1024)%Z) ].

Fixpoint find (key : string) (table : list (string * Z)) : option Z :=
  match table with
  | [] => None
  | (k, v) :: r => if String.eqb k key then Some v else find key r
  end.

(** [string_unit_to_numeric]. *)
Definition string_unit_to_numeric (unit : string) : result Z :=
  let s := erase_trailing_space (erase_leading_space unit) in
  if is_empty s then
    Throw (invalid_argument "Input string for unit conversion cannot be empty.")
  else
    let s := lowercase s in
    let number_str := leading_digits s in
    let unit_str := after_digits s in
    if is_empty number_str then
      Throw (invalid_argument
               ("Input string '" +++ unit +++ "' does not contain a numeric part."))
    else
      number <- stoull number_str ;;
      multiplier <-
        match find unit_str multipliers with
        | Some m => Ok m
        | None =>
            if is_empty unit_str then Ok 1%Z
            else Throw (invalid_argument
                          ("Unknown storage unit '" +++ unit_str +++ "' in input '"
                             +++ unit +++ "'."))
        end ;;
      let max_val := (2 ^ 64 - 1)%Z in
      if ((1 <? multiplier) && (max_val / multiplier <? number))%Z then
        Throw (overflow_error
                 ("The value '" +++ unit
                    +++ "' results in an overflow and is too large to be represented."))
      else Ok (number * multiplier)%Z.

(** The set [supported_extensions] of [is_supported_image]. *)
Definition supported_extensions : list string :=
  [ "bmp"; "dib"; "jpeg"; "jpg"; "jpe"; "jp2"; "png"; "webp"; "pbm"; "pgm";
    "ppm"; "pxm"; "pnm"; "sr"; "ras"; "tiff"; "tif"; "exr"; "hdr"; "pic";
    "dt0"; "dt1"; "dt2"; "hdr"; "img"; "j2k"; "ecw" ]%string.

(** [is_supported_image]. *)
Definition is_supported_image (extension : string) : bool :=
  let extension :=
    match extension with
    | String "."%char r => r
    | _ => extension
    end in
  let lower_extension := lowercase extension in
  existsb (String.eqb lower_extension) supported_extensions.

(** *** configuration and parse_arguments *)

(** [struct configuration]; [top_k] is an [int], [threads] an
    [unsigned int], [max_filesize] a [uint64_t]. *)
Record configuration : Type := mk_configuration {
  model_path : string;
  classes_path : string;
  top_k : Z;
  threads : Z;
  enable_timing : bool;
  use_softmax : bool;
  max_filesize : Z;
  disable_extension_check : bool;
  image_files : list string
}.

(** Conversion to [unsigned int], as the assignment
    [result.threads = std::stoi(xoptarg)] performs. *)
Definition to_unsigned (v : Z) : Z := (v mod 2 ^ 32)%Z.

(** The range of an [unsigned int]. *)
Definition is_unsigned (v : Z) : Prop := (0 <= v < 2 ^ 32)%Z.

(** The default member initialisers.  [hardware_concurrency] is the value
    [std::thread::hardware_concurrency()] returns, an [unsigned int]. *)
Definition default_configuration (hardware_concurrency : Z) : result configuration :=
  filesize <- string_unit_to_numeric "100mb" ;;
  Ok {| model_path := ""; classes_path := ""; top_k := 5;
        threads := to_unsigned hardware_concurrency;
        enable_timing := false; use_softmax := false;
        max_filesize := filesize; disable_extension_check := false;
        image_files := [] |}.

Definition set_model_path (v : string) (c : configuration) : configuration :=
  mk_configuration v (classes_path c) (top_k c) (threads c) (enable_timing c)
    (use_softmax c) (max_filesize c) (disable_extension_check c) (image_files c).
Definition set_classes_path (v : string) (c : configuration) : configuration :=
  mk_configuration (model_path c) v (top_k c) (threads c) (enable_timing c)
    (use_softmax c) (max_filesize c) (disable_extension_check c) (image_files c).
Definition set_top_k (v : Z) (c : configuration) : configuration :=
  mk_configuration (model_path c) (classes_path c) v (threads c) (enable_timing c)
    (use_softmax c) (max_filesize c) (disable_extension_check c) (image_files c).
Definition set_threads (v : Z) (c : configuration) : configuration :=
  mk_configuration (model_path c) (classes_path c) (top_k c) v (enable_timing c)
    (use_softmax c) (max_filesize c) (disable_extension_check c) (image_files c).
Definition set_enable_timing (v : bool) (c : configuration) : configuration :=
  mk_configuration (model_path c) (classes_path c) (top_k c) (threads c) v
    (use_softmax c) (max_filesize c) (disable_extension_check c) (image_files c).
Definition set_use_softmax (v : bool) (c : configuration) : configuration :=
  mk_configuration (model_path c) (classes_path c) (top_k c) (threads c) (enable_timing c)
    v (max_filesize c) (disable_extension_check c) (image_files c).
Definition set_max_filesize (v : Z) (c : configuration) : configuration :=
  mk_configuration (model_path c) (classes_path c) (top_k c) (threads c) (enable_timing c)
    (use_softmax c) v (disable_extension_check c) (image_files c).
Definition set_disable_extension_check (v : bool) (c : configuration) : configuration :=
  mk_configuration (model_path c) (classes_path c) (top_k c) (threads c) (enable_timing c)
    (use_softmax c) (max_filesize c) v (image_files c).
Definition set_image_files (v : list string) (c : configuration) : configuration :=
  mk_configuration (model_path c) (classes_path c) (top_k c) (threads c) (enable_timing c)
    (use_softmax c) (max_filesize c) (disable_extension_check c) v.

(** How a call of [parse_arguments] ends: it returns, it calls
    [exit(EXIT_SUCCESS)] after printing, or it throws. *)
Inductive parse_outcome : Type :=
| Returned (c : configuration)
| Exited
| Thrown (e : exception).

(** The [while(true)] loop with its [switch].  [xgetopt_long] belongs to
    the bundled xgetopt library, not to this program: the loop is given
    the values it returns on its successive calls before [-1], each with
    the [xoptarg] it sets.  A value outside the listed cases (['?'] for an
    option it does not know) takes the [default] branch. *)
Fixpoint options_loop (opts : list (ascii * string)) (result : configuration)
  : parse_outcome :=
  match opts with
  | [] => Returned result
  | (opt, xoptarg) :: rest =>
      match opt with
      | "m"%char => options_loop rest (set_model_path xoptarg result)
      | "c"%char => options_loop rest (set_classes_path xoptarg result)
      | "k"%char =>
          match stoi xoptarg with
          | Ok v => options_loop rest (set_top_k v result)
          | Throw e => Thrown e
          end
      | "t"%char =>
          match stoi xoptarg with
          | Ok v => options_loop rest (set_threads (to_unsigned v) result)
          | Throw e => Thrown e
          end
      | "T"%char => options_loop rest (set_enable_timing true result)
      | "S"%char => options_loop rest (set_use_softmax true result)
      | "F"%char =>
          match string_unit_to_numeric xoptarg with
          | Ok v => options_loop rest (set_max_filesize v result)
          | Throw e => Thrown e
          end
      | "D"%char => options_loop rest (set_disable_extension_check true result)
      | "h"%char => Exited
      | "v"%char => Exited
      | "a"%char => Exited
      | _ => Thrown (runtime_error "could not parse parameters, use --help for usage.")
      end
  end.

(** [parse_arguments].  [operands] are [argv[xoptind .. argc)], the
    non-option arguments left once [xgetopt_long] has returned [-1]. *)
Definition parse_arguments (hardware_concurrency : Z) (argc : Z)
           (opts : list (ascii * string)) (operands : list string) : parse_outcome :=
  if (argc =? 1)%Z then Exited
  else
    match default_configuration hardware_concurrency with
    | Throw e => Thrown e
    | Ok result =>
        match options_loop opts result with
        | Returned result =>
            let result := set_image_files (image_files result ++ operands) result in
            let result :=
              if (threads result =? 0)%Z then set_threads 1 result else result in
            Returned result
        | other => other
        end
    end.

(** *** The thread functions *)

(** What the threads share: the two queues, each with the log of the calls
    made on it, and the three standard streams.  [cin] is the input still
    unread, one element per line; [cout] and [cerr] hold what has been
    written, one element per write. *)
Record world : Type := mk_world {
  tsq_in : tsqueue * list record;
  tsq_out : tsqueue * list record;
  cin : list string;
  cout : list string;
  cerr : list string
}.

Definition set_tsq_in (v : tsqueue * list record) (w : world) : world :=
  mk_world v (tsq_out w) (cin w) (cout w) (cerr w).
Definition set_tsq_out (v : tsqueue * list record) (w : world) : world :=
  mk_world (tsq_in w) v (cin w) (cout w) (cerr w).
Definition set_cin (v : list string) (w : world) : world :=
  mk_world (tsq_in w) (tsq_out w) v (cout w) (cerr w).
Definition set_cout (v : list string) (w : world) : world :=
  mk_world (tsq_in w) (tsq_out w) (cin w) v (cerr w).
Definition set_cerr (v : list string) (w : world) : world :=
  mk_world (tsq_in w) (tsq_out w) (cin w) (cout w) v.

(** How a thread function, run with nobody else touching its queues,
    ends: it returns, it stays parked in [pop] for ever, or the fuel given
    to its loop ran out. *)
Inductive thread_result : Type :=
| Finished (w : world)
| Parked (w : world)
| OutOfFuel (w : world).

(** [std::endl] after a line. *)
Definition endl : string := String (ascii_of_nat 10) EmptyString.

Section Threads.

(** [cv::Mat] and [float]. *)
Variables image score : Type.

(** The collaborators of the thread functions, none of them code of this
    program: the filesystem, OpenCV, the clock, the formatting of a
    [float], and the inference of [yolo::predict]. *)
Record environment : Type := mk_environment {
  path_extension : string -> string;
  is_regular_file : string -> result bool;
  file_size : string -> result Z;
  imread : string -> result image;
  image_empty : image -> bool;
  predict : image -> Z -> result (list (prediction score));
  elapsed_ms : string -> Z;
  score_to_string : score -> string
}.

Variable env : environment.
Variable c : configuration.

(** The loop over [cls] that appends the predictions to [result]. *)
Fixpoint format_predictions (cls : list (prediction score)) (result : string) : string :=
  match cls with
  | [] => result
  | it :: rest =>
      let result := result +++ class_name it +++ " " +++ score_to_string env (confidence it) in
      let result :=
        match rest with
        | [] => result
        | _ :: _ => result +++ ", "
        end in
      format_predictions rest result
  end.

(** The [try] block of [thread_classify] up to the string it pushes. *)
Definition classify (path : string) : result string :=
  regular <- is_regular_file env path ;;
  if negb regular then
    Throw (filesystem_error "Path is not a regular file or does not exist" path
             no_such_file_or_directory)
  else
    file_sz <- file_size env path ;;
    if (file_sz =? 0)%Z then Throw (length_error "File is empty.")
    else if (max_filesize c <? file_sz)%Z then Throw (length_error "File is too large.")
    else
      img <- imread env path ;;
      if image_empty env img then
        Throw (runtime_error "OpenCV could not read or decode image.")
      else
        cls <- predict env img (to_size_t (top_k c)) ;;
        let result := path in
        let result :=
          if enable_timing c then
            result +++ ", " +++ to_string (elapsed_ms env path) +++ "ms"
          else result in
        let result := if (top_k c =? 0)%Z then result else result +++ ", " in
        Ok (format_predictions cls result).

(** The item-level failures of the worker loop, each with the exception
    that reaches the [catch] block: the path is not a regular file, the
    file is empty, it is larger than [max_filesize], OpenCV returns an
    empty image, or the classifier throws. *)
Inductive failure (path : string) : exception -> Prop :=
| not_regular :
    is_regular_file env path = Ok false ->
    failure path (filesystem_error "Path is not a regular file or does not exist" path
                    no_such_file_or_directory)
| zero_length :
    is_regular_file env path = Ok true ->
    file_size env path = Ok 0%Z ->
    failure path (length_error "File is empty.")
| oversized (sz : Z) :
    is_regular_file env path = Ok true ->
    file_size env path = Ok sz ->
    (0 <= max_filesize c < sz)%Z ->
    failure path (length_error "File is too large.")
| undecodable (sz : Z) (img : image) :
    is_regular_file env path = Ok true ->
    file_size env path = Ok sz ->
    (0 < sz <= max_filesize c)%Z ->
    imread env path = Ok img ->
    image_empty env img = true ->
    failure path (runtime_error "OpenCV could not read or decode image.")
| classifier_throws (sz : Z) (img : image) (e : exception) :
    is_regular_file env path = Ok true ->
    file_size env path = Ok sz ->
    (0 < sz <= max_filesize c)%Z ->
    imread env path = Ok img ->
    image_empty env img = false ->
    predict env img (to_size_t (top_k c)) = Throw e ->
    failure path e.

(** The line the [catch] block writes to [std::cerr]. *)
Definition diagnostic (value : string) (e : exception) : string :=
  "yolo-cls: could not process the file '" +++ value +++ "': " +++ what e +++ endl.

(** The body of the [while] loop of [thread_classify] for a popped
    [value]: push the result, or catch and report. *)
Definition classify_body (tid : nat) (value : string) (w : world) : world :=
  match classify value with
  | Ok result => set_tsq_out (exec (CPush tid result) (tsq_out w)) w
  | Throw e => set_cerr (cerr w ++ [diagnostic value e]) w
  end.

(** [thread_classify]. *)
Fixpoint thread_classify (fuel : nat) (tid : nat) (w : world) : thread_result :=
  match fuel with
  | O => OutOfFuel w
  | S fuel =>
      let w' := set_tsq_in (exec (CPop tid) (tsq_in w)) w in
      match pop (fst (tsq_in w)) with
      | Waiting => Parked w'
      | Popped None _ => Finished w'
      | Popped (Some value) _ => thread_classify fuel tid (classify_body tid value w')
      end
  end.

(** [thread_print_tsq]. *)
Fixpoint thread_print_tsq (fuel : nat) (tid : nat) (w : world) : thread_result :=
  match fuel with
  | O => OutOfFuel w
  | S fuel =>
      let w' := set_tsq_out (exec (CPop tid) (tsq_out w)) w in
      match pop (fst (tsq_out w)) with
      | Waiting => Parked w'
      | Popped None _ => Finished w'
      | Popped (Some value) _ =>
          thread_print_tsq fuel tid (set_cout (cout w' ++ [value +++ endl]) w')
      end
  end.

(** The lines [thread_get_line] lets through: all of them when the
    extension check is disabled, otherwise those whose extension
    [is_supported_image] accepts. *)
Definition accepted (line : string) : bool :=
  disable_extension_check c || is_supported_image (path_extension env line).

(** The body of the [while] loop of [thread_get_line] for a [line]. *)
Definition get_line_body (tid : nat) (line : string) (w : world) : world :=
  let extension := path_extension env line in
  if negb (disable_extension_check c) then
    if is_supported_image extension then
      set_tsq_in (exec (CPush tid line) (tsq_in w)) w
    else w
  else set_tsq_in (exec (CPush tid line) (tsq_in w)) w.

(** The [while(std::getline(std::cin, line))] loop. *)
Fixpoint get_line_loop (tid : nat) (lines : list string) (w : world) : world :=
  match lines with
  | [] => set_cin [] w
  | line :: rest => get_line_loop tid rest (get_line_body tid line (set_cin rest w))
  end.

(** [thread_get_line]: the loop until end of input, then [close()]. *)
Definition thread_get_line (tid : nat) (w : world) : world :=
  let w := get_line_loop tid (cin w) w in
  set_tsq_in (exec (CClose tid) (tsq_in w)) w.

End Threads.

(** [msg] contains [item]. *)
Definition mentions (item msg : string) : Prop :=
  exists pre post, msg = pre +++ item +++ post.

Arguments mk_environment {image score}.
Arguments path_extension {image score}.
Arguments is_regular_file {image score}.
Arguments file_size {image score}.
Arguments imread {image score}.
Arguments image_empty {image score}.
Arguments predict {image score}.
Arguments elapsed_ms {image score}.
Arguments score_to_string {image score}.
Arguments format_predictions {image score}.
Arguments classify {image score}.
Arguments failure {image score}.
Arguments classify_body {image score}.
Arguments thread_classify {image score}.
Arguments thread_print_tsq _ _ _ : clear implicits.
Arguments accepted {image score}.
Arguments get_line_body {image score}.
Arguments get_line_loop {image score}.
Arguments thread_get_line {image score}.

End Utils.

(* ------------------------------------------------------------------ *)
(** ** main: the pipeline as a system of threads *)

Module Main.
Import TSQueue Yolo Utils.

(** Where [main] stands, from the construction of the output thread on
    (the parsing of the arguments and the construction of the classifier
    come before and start no thread). *)
Inductive main_pc : Type :=
| AtStartOutput
| AtSpawnWorkers (i : Z)
| AtIsatty
| AtPushFiles (rest : list string)
| AtCloseIn
| AtStartInput
| AtJoinInput
| AtJoinWorkers (k : nat)
| AtCloseOut
| AtJoinOutput
| AtReturn.

(** Where a worker running [thread_classify] stands: about to call
    [pop], holding a popped value it has yet to process, or returned. *)
Inductive worker_pc : Type :=
| WPop
| WBody (value : string)
| WReturned.

(** Where the thread running [thread_print_tsq] stands. *)
Inductive printer_pc : Type :=
| PPop
| PPrint (value : string)
| PReturned.

(** Where the thread running [thread_get_line] stands. *)
Inductive reader_pc : Type :=
| RGetLine
| RClose
| RReturned.

(** A thread that has not been constructed yet is [None]. *)
Record system : Type := mk_system {
  shared : world;
  main : main_pc;
  output_thread : option printer_pc;
  worker_threads : list worker_pc;
  input_thread : option reader_pc
}.

Definition set_shared (v : world) (s : system) : system :=
  mk_system v (main s) (output_thread s) (worker_threads s) (input_thread s).
Definition set_main (v : main_pc) (s : system) : system :=
  mk_system (shared s) v (output_thread s) (worker_threads s) (input_thread s).
Definition set_output_thread (v : option printer_pc) (s : system) : system :=
  mk_system (shared s) (main s) v (worker_threads s) (input_thread s).
Definition set_worker_threads (v : list worker_pc) (s : system) : system :=
  mk_system (shared s) (main s) (output_thread s) v (input_thread s).
Definition set_input_thread (v : option reader_pc) (s : system) : system :=
  mk_system (shared s) (main s) (output_thread s) (worker_threads s) v.

Inductive thread : Type :=
| TMain
| TOutput
| TWorker (i : nat)
| TInput.

(** The name under which a thread appears in the queue logs. *)
Definition tid (t : thread) : nat :=
  match t with
  | TMain => 0
  | TOutput => 1
  | TInput => 2
  | TWorker i => 3 + i
  end.

(** [l[i] = x]; nothing happens past the end. *)
Fixpoint update {A : Type} (i : nat) (x : A) (l : list A) : list A :=
  match l, i with
  | [], _ => []
  | _ :: r, O => x :: r
  | y :: r, S j => y :: update j x r
  end.

Definition initial (stdin : list string) : system :=
  {| shared := {| tsq_in := (fresh, []); tsq_out := (fresh, []);
                  cin := stdin; cout := []; cerr := [] |};
     main := AtStartOutput;
     output_thread := None;
     worker_threads := [];
     input_thread := None |}.

Section Pipeline.

Variables image score : Type.
Variable env : environment image score.

(** [config] after [parse_arguments], and what [isatty(STDIN_FILENO)]
    answers. *)
Variable config : configuration.
Variable isatty : bool.

(** One step of [main].  [None]: [main] is waiting in a [join] on a
    thread that has not returned, or has itself returned.  In the loop that
    spawns the workers, [i] is an [int] compared with the unsigned
    [config.threads]. *)
Definition main_step (s : system) : option system :=
  match main s with
  | AtStartOutput =>
      Some (set_main (AtSpawnWorkers 0) (set_output_thread (Some PPop) s))
  | AtSpawnWorkers i =>
      if (to_unsigned i <? threads config)%Z then
        Some (set_main (AtSpawnWorkers (i + 1))
                (set_worker_threads (worker_threads s ++ [WPop]) s))
      else Some (set_main AtIsatty s)
  | AtIsatty =>
      if isatty then Some (set_main (AtPushFiles (image_files config)) s)
      else Some (set_main AtStartInput s)
  | AtPushFiles [] => Some (set_main AtCloseIn s)
  | AtPushFiles (i :: rest) =>
      let w := shared s in
      Some (set_main (AtPushFiles rest)
              (set_shared (set_tsq_in (exec (CPush (tid TMain) i) (tsq_in w)) w) s))
  | AtCloseIn =>
      let w := shared s in
      Some (set_main (AtJoinWorkers 0)
              (set_shared (set_tsq_in (exec (CClose (tid TMain)) (tsq_in w)) w) s))
  | AtStartInput =>
      Some (set_main AtJoinInput (set_input_thread (Some RGetLine) s))
  | AtJoinInput =>
      match input_thread s with
      | Some RReturned => Some (set_main (AtJoinWorkers 0) s)
      | _ => None
      end
  | AtJoinWorkers k =>
      match nth_error (worker_threads s) k with
      | None => Some (set_main AtCloseOut s)
      | Some WReturned => Some (set_main (AtJoinWorkers (S k)) s)
      | Some _ => None
      end
  | AtCloseOut =>
      let w := shared s in
      Some (set_main AtJoinOutput
              (set_shared (set_tsq_out (exec (CClose (tid TMain)) (tsq_out w)) w) s))
  | AtJoinOutput =>
      match output_thread s with
      | Some PReturned => Some (set_main AtReturn s)
      | _ => None
      end
  | AtReturn => None
  end.

(** One step of worker [i]: a [pop] that is not parked, or the loop body
    for the value it holds. *)
Definition worker_step (i : nat) (s : system) : option system :=
  let w := shared s in
  match nth_error (worker_threads s) i with
  | Some WPop =>
      let w' := set_tsq_in (exec (CPop (tid (TWorker i))) (tsq_in w)) w in
      match pop (fst (tsq_in w)) with
      | Waiting => None
      | Popped None _ =>
          Some (set_worker_threads (update i WReturned (worker_threads s))
                  (set_shared w' s))
      | Popped (Some value) _ =>
          Some (set_worker_threads (update i (WBody value) (worker_threads s))
                  (set_shared w' s))
      end
  | Some (WBody value) =>
      Some (set_worker_threads (update i WPop (worker_threads s))
              (set_shared (classify_body env config (tid (TWorker i)) value w) s))
  | _ => None
  end.

(** One step of the output thread. *)
Definition output_step (s : system) : option system :=
  let w := shared s in
  match output_thread s with
  | Some PPop =>
      let w' := set_tsq_out (exec (CPop (tid TOutput)) (tsq_out w)) w in
      match pop (fst (tsq_out w)) with
      | Waiting => None
      | Popped None _ => Some (set_output_thread (Some PReturned) (set_shared w' s))
      | Popped (Some value) _ =>
          Some (set_output_thread (Some (PPrint value)) (set_shared w' s))
      end
  | Some (PPrint value) =>
      Some (set_output_thread (Some PPop)
              (set_shared (set_cout (cout w ++ [value +++ endl]) w) s))
  | _ => None
  end.

(** One step of the input thread. *)
Definition input_step (s : system) : option system :=
  let w := shared s in
  match input_thread s with
  | Some RGetLine =>
      match cin w with
      | [] => Some (set_input_thread (Some RClose) s)
      | line :: rest =>
          Some (set_shared (get_line_body env config (tid TInput) line (set_cin rest w)) s)
      end
  | Some RClose =>
      Some (set_input_thread (Some RReturned)
              (set_shared (set_tsq_in (exec (CClose (tid TInput)) (tsq_in w)) w) s))
  | _ => None
  end.

Definition step (who : thread) (s : system) : option system :=
  match who with
  | TMain => main_step s
  | TOutput => output_step s
  | TWorker i => worker_step i s
  | TInput => input_step s
  end.

(** A schedule names the thread that is given the processor next; a
    thread that cannot move leaves the system as it is. *)
Definition turn (s : system) (who : thread) : system :=
  match step who s with
  | Some s' => s'
  | None => s
  end.

Definition run_system (sched : list thread) (s : system) : system :=
  fold_left turn sched s.

(** The output queue is closed from [AtJoinOutput] on. *)
Definition closed_at (pc : main_pc) : bool :=
  match pc with
  | AtJoinOutput | AtReturn => true
  | _ => false
  end.

(** How many of [n] workers [main] has joined when it stands at [pc]. *)
Definition joined (pc : main_pc) (n : nat) : nat :=
  match pc with
  | AtJoinWorkers k => k
  | AtCloseOut | AtJoinOutput | AtReturn => n
  | _ => 0
  end.

(** How many workers exist when [main] stands at [pc]. *)
Definition spawned (pc : main_pc) (n : nat) : Prop :=
  match pc with
  | AtStartOutput => n = 0%nat
  | AtSpawnWorkers i => (0 <= i <= threads config)%Z /\ Z.of_nat n = i
  | _ => Z.of_nat n = threads config
  end.

Definition all_returned (l : list worker_pc) : Prop :=
  Forall (fun p => p = WReturned) l.

Definition out_done (s : system) : bool := done (fst (tsq_out (shared s))).

(** The invariant of the pipeline: the output queue is closed exactly
    when [main] is past its [close()], the workers spawned are those the
    loop has created so far, and every worker [main] has joined has
    returned. *)
Definition invariant (s : system) : Prop :=
  out_done s = closed_at (main s) /\
  spawned (main s) (length (worker_threads s)) /\
  all_returned (firstn (joined (main s) (length (worker_threads s))) (worker_threads s)).

End Pipeline.

Arguments worker_step {image score} env config i s.
Arguments input_step {image score} env config s.
Arguments step {image score} env config isatty who s.
Arguments turn {image score} env config isatty s who.
Arguments run_system {image score} env config isatty sched s.

End Main.

(* ------------------------------------------------------------------ *)
(** ** A test bench

    A concrete filesystem, decoder and classifier to run the pipeline on:
    an image is its path, a score an integer number of thousandths. *)

Module Bench.
Import TSQueue Yolo Utils Main.

(** The last component of a path. *)
Fixpoint filename (s acc : string) : string :=
  match s with
  | EmptyString => acc
  | String c r =>
      if Ascii.eqb c "/" then filename r EmptyString
      else filename r (acc +++ String c EmptyString)
  end.

(** The suffix of [s] from its last period on. *)
Fixpoint from_last_period (s : string) : option string :=
  match s with
  | EmptyString => None
  | String c r =>
      match from_last_period r with
      | Some x => Some x
      | None => if Ascii.eqb c "." then Some s else None
      end
  end.

(** [std::filesystem::path::extension] on POSIX paths. *)
Definition extension (line : string) : string :=
  let f := filename line EmptyString in
  if String.eqb f "." || String.eqb f ".." then EmptyString
  else
    match f with
    | String "."%char r =>
        match from_last_period r with Some x => x | None => EmptyString end
    | _ => match from_last_period f with Some x => x | None => EmptyString end
    end.

Definition bench_env : environment string Z :=
  {| path_extension := extension;
     is_regular_file := fun p => Ok (negb (String.eqb p "missing.png"));
     file_size := fun p =>
       if String.eqb p "empty.png" then Ok 0%Z
       else if String.eqb p "huge.png" then Ok (2 ^ 40)%Z
       else Ok 4096%Z;
     imread := fun p => Ok p;
     image_empty := fun img => String.eqb img "broken.png";
     predict := fun img k =>
       if String.eqb img "b.png" then Throw (other_exception "inference failed")
       else Ok (firstn (Z.to_nat k) [mk_prediction "cat"%string 900%Z;
                                     mk_prediction "dog"%string 100%Z]);
     elapsed_ms := fun _ => 12%Z;
     score_to_string := to_string |}.

(** [yolo-cls -m m.onnx -c c.names -k 1 -t 2 a.png b.png]. *)
Definition bench_config : configuration :=
  {| model_path := "m.onnx"; classes_path := "c.names"; top_k := 1; threads := 2;
     enable_timing := false; use_softmax := false; max_filesize := 104857600;
     disable_extension_check := false; image_files := ["a.png"; "b.png"]%string |}.

(** A schedule that runs the pipeline on [bench_config] to the end. *)
Definition bench_schedule : list thread :=
  [TMain; TMain; TMain; TMain; TMain; TMain; TWorker 0; TMain; TWorker 1;
   TWorker 0; TOutput; TMain; TMain; TWorker 1; TOutput; TWorker 0; TWorker 1;
   TMain; TMain; TMain; TMain; TOutput; TMain].

End Bench.

(* ------------------------------------------------------------------ *)
(** ** Names given by the top-k loop *)

Module Labels.
Import Yolo.

(** The name the loop of [yolo::predict] gives to a class index that does
    not hit the end of the name list: the name at that index when there
    is one, [class_<index>] otherwise. *)
Definition label (class_names : list string) (class_index : Z) : string :=
  if (to_size_t class_index <? Z.of_nat (length class_names))%Z then
    nth (Z.to_nat (to_size_t class_index)) class_names EmptyString
  else String.append "class_" (to_string class_index).

Definition labelled {score : Type} (class_names : list string) (e : Z * score)
  : prediction score :=
  mk_prediction (label class_names (fst e)) (snd e).

(** The entry subscripts the name list one past its last element. *)
Definition hits_end {score : Type} (class_names : list string) (e : Z * score) : Prop :=
  to_size_t (fst e) = Z.of_nat (length class_names).

(** The entries the loop visits: the first [min(top_k, size)]. *)
Definition visited {score : Type} (top_k : Z) (indexed_scores : list (Z * score))
  : list (Z * score) :=
  firstn (Z.to_nat (Z.min top_k (Z.of_nat (length indexed_scores)))) indexed_scores.

End Labels.

(* ------------------------------------------------------------------ *)
(** ** Shapes of strings *)

Module Text.
Import Utils.

(** Every character is a decimal digit. *)
Fixpoint all_digits (s : string) : bool :=
  match s with
  | EmptyString => true
  | String c r => isdigit c && all_digits r
  end.

(** Every character is white space. *)
Fixpoint blank (s : string) : bool :=
  match s with
  | EmptyString => true
  | String c r => isspace c && blank r
  end.

(** No character is white space. *)
Fixpoint spaceless (s : string) : bool :=
  match s with
  | EmptyString => true
  | String c r => negb (isspace c) && spaceless r
  end.

(** The string is empty or starts with something else than a digit. *)
Definition no_leading_digit (s : string) : bool :=
  match s with
  | EmptyString => true
  | String c _ => negb (isdigit c)
  end.

(** The string starts with a period. *)
Definition leading_period (s : string) : bool :=
  match s with
  | EmptyString => false
  | String c _ => Ascii.eqb c "."
  end.

(** What [string_unit_to_numeric] makes of the number [v] with the
    multiplier [m], for the argument [unit]. *)
Definition scaled (unit : string) (v m : Z) : result Z :=
  if (2 ^ 64 - 1 <? v)%Z then Throw (out_of_range "stoull")
  else if ((1 <? m) && ((2 ^ 64 - 1) / m <? v))%Z then
    Throw (overflow_error
             ("The value '" +++ unit
                +++ "' results in an overflow and is too large to be represented."))
  else Ok (v * m)%Z.

End Text.

(* ------------------------------------------------------------------ *)
(** ** Options on the command line *)

Module Options.
Import Utils.

(** The option [flag] is among the options [xgetopt_long] has returned. *)
Definition given (flag : ascii) (opts : list (ascii * string)) : bool :=
  existsb (fun o => Ascii.eqb (fst o) flag) opts.

(** The range of an [int]. *)
Definition is_int (v : Z) : Prop := (- 2 ^ 31 <= v <= 2 ^ 31 - 1)%Z.

(** The range of a [uint64_t]. *)
Definition is_uint64 (v : Z) : Prop := (0 <= v <= 2 ^ 64 - 1)%Z.

End Options.

(* ------------------------------------------------------------------ *)
(** ** What a worker makes of a list of items *)

Module Outcome.
Import TSQueue Yolo Utils.

Section Outcome.
Variables image score : Type.
Variable env : environment image score.
Variable c : configuration.

(** The records of the items whose processing succeeds, in order. *)
Fixpoint records (items : list string) : list string :=
  match items with
  | [] => []
  | value :: rest =>
      match classify env c value with
      | Ok result => result :: records rest
      | Throw _ => records rest
      end
  end.

(** The diagnostic lines of the items whose processing fails, in order. *)
Fixpoint diagnostics (items : list string) : list string :=
  match items with
  | [] => []
  | value :: rest =>
      match classify env c value with
      | Ok _ => diagnostics rest
      | Throw e => diagnostic value e :: diagnostics rest
      end
  end.

(** One prediction as it stands in a record. *)
Definition show (p : prediction score) : string :=
  class_name p +++ " " +++ score_to_string env (confidence p).

(** The record of [path] for the predictions [cls]. *)
Definition record_line (path : string) (cls : list (prediction score)) : string :=
  path
    +++ (if enable_timing c then ", " +++ to_string (elapsed_ms env path) +++ "ms"
         else EmptyString)
    +++ (if (top_k c =? 0)%Z then EmptyString else ", ")
    +++ String.concat ", " (map show cls).

End Outcome.

Arguments records {image score}.
Arguments diagnostics {image score}.
Arguments show {image score}.
Arguments record_line {image score}.

(** The log entries of [tid] popping [items] one after the other. *)
Definition pops (tid : nat) (items : list string) : list record :=
  map (fun v => RPopped tid (Some v)) items.

(** How a loop over a drained queue ends: with the end of stream when the
    queue is closed, parked when it is open. *)
Definition ending (d : bool) (w : world) : thread_result :=
  if d then Finished w else Parked w.

Definition last_pop (d : bool) (tid : nat) : record :=
  if d then RPopped tid None else RParked tid.

End Outcome.

(* ------------------------------------------------------------------ *)
(** ** The moves of the pipeline and its books *)

Module Ledger.
Import TSQueue Yolo Utils Main.

(** The workers that hold a popped value they have yet to process. *)
Fixpoint holding (l : list worker_pc) : nat :=
  match l with
  | [] => 0
  | WBody _ :: r => S (holding r)
  | _ :: r => holding r
  end.

(** The value the output thread has popped and not yet printed. *)
Definition printing (s : system) : list string :=
  match output_thread s with
  | Some (PPrint value) => [value]
  | _ => []
  end.

(** A line as [thread_print_tsq] writes it. *)
Definition line (value : string) : string := value +++ endl.

Definition is_push (r : record) : bool :=
  match r with RPushed _ _ => true | _ => false end.

Definition is_close (r : record) : bool :=
  match r with RClosed _ => true | _ => false end.

(** No [push] is logged after a [close]. *)
Fixpoint orderly (log : list record) : bool :=
  match log with
  | [] => true
  | r :: rest => (negb (is_close r) || negb (existsb is_push rest)) && orderly rest
  end.

(** The log and the flag of a queue agree, and the log is orderly. *)
Definition respected (st : tsqueue * list record) : Prop :=
  existsb is_close (snd st) = done (fst st) /\ orderly (snd st) = true.

Section Books.

Variables image score : Type.
Variable env : environment image score.
Variable config : configuration.
Variable isatty : bool.

(** The input the program was started on. *)
Variable stdin : list string.

(** The moves of the system, one constructor per branch of [step]. *)
Inductive move (s : system) : system -> Prop :=
| m_start_output :
    main s = AtStartOutput ->
    move s (set_main (AtSpawnWorkers 0) (set_output_thread (Some PPop) s))
| m_spawn i :
    main s = AtSpawnWorkers i -> (to_unsigned i <? threads config)%Z = true ->
    move s (set_main (AtSpawnWorkers (i + 1))
              (set_worker_threads (worker_threads s ++ [WPop]) s))
| m_spawned i :
    main s = AtSpawnWorkers i -> (to_unsigned i <? threads config)%Z = false ->
    move s (set_main AtIsatty s)
| m_tty :
    main s = AtIsatty -> isatty = true ->
    move s (set_main (AtPushFiles (image_files config)) s)
| m_pipe :
    main s = AtIsatty -> isatty = false ->
    move s (set_main AtStartInput s)
| m_push f rest :
    main s = AtPushFiles (f :: rest) ->
    move s (set_main (AtPushFiles rest)
              (set_shared (set_tsq_in (exec (CPush (tid TMain) f) (tsq_in (shared s)))
                             (shared s)) s))
| m_pushed :
    main s = AtPushFiles [] ->
    move s (set_main AtCloseIn s)
| m_close_in :
    main s = AtCloseIn ->
    move s (set_main (AtJoinWorkers 0)
              (set_shared (set_tsq_in (exec (CClose (tid TMain)) (tsq_in (shared s)))
                             (shared s)) s))
| m_start_input :
    main s = AtStartInput ->
    move s (set_main AtJoinInput (set_input_thread (Some RGetLine) s))
| m_join_input :
    main s = AtJoinInput -> input_thread s = Some RReturned ->
    move s (set_main (AtJoinWorkers 0) s)
| m_join_worker k :
    main s = AtJoinWorkers k -> nth_error (worker_threads s) k = Some WReturned ->
    move s (set_main (AtJoinWorkers (S k)) s)
| m_joined k :
    main s = AtJoinWorkers k -> nth_error (worker_threads s) k = None ->
    move s (set_main AtCloseOut s)
| m_close_out :
    main s = AtCloseOut ->
    move s (set_main AtJoinOutput
              (set_shared (set_tsq_out (exec (CClose (tid TMain)) (tsq_out (shared s)))
                             (shared s)) s))
| m_join_output :
    main s = AtJoinOutput -> output_thread s = Some PReturned ->
    move s (set_main AtReturn s)
| w_pop_value i value rest d log :
    nth_error (worker_threads s) i = Some WPop ->
    tsq_in (shared s) = ({| queue := value :: rest; done := d |}, log) ->
    move s (set_worker_threads (update i (WBody value) (worker_threads s))
              (set_shared (set_tsq_in ({| queue := rest; done := d |},
                                       log ++ [RPopped (tid (TWorker i)) (Some value)])
                             (shared s)) s))
| w_pop_end i log :
    nth_error (worker_threads s) i = Some WPop ->
    tsq_in (shared s) = ({| queue := []; done := true |}, log) ->
    move s (set_worker_threads (update i WReturned (worker_threads s))
              (set_shared (set_tsq_in ({| queue := []; done := true |},
                                       log ++ [RPopped (tid (TWorker i)) None])
                             (shared s)) s))
| w_body_ok i value result :
    nth_error (worker_threads s) i = Some (WBody value) ->
    classify env config value = Ok result ->
    move s (set_worker_threads (update i WPop (worker_threads s))
              (set_shared (set_tsq_out (exec (CPush (tid (TWorker i)) result)
                                          (tsq_out (shared s))) (shared s)) s))
| w_body_throw i value e :
    nth_error (worker_threads s) i = Some (WBody value) ->
    classify env config value = Throw e ->
    move s (set_worker_threads (update i WPop (worker_threads s))
              (set_shared (set_cerr (cerr (shared s) ++ [diagnostic value e])
                             (shared s)) s))
| o_pop_value value rest d log :
    output_thread s = Some PPop ->
    tsq_out (shared s) = ({| queue := value :: rest; done := d |}, log) ->
    move s (set_output_thread (Some (PPrint value))
              (set_shared (set_tsq_out ({| queue := rest; done := d |},
                                        log ++ [RPopped (tid TOutput) (Some value)])
                             (shared s)) s))
| o_pop_end log :
    output_thread s = Some PPop ->
    tsq_out (shared s) = ({| queue := []; done := true |}, log) ->
    move s (set_output_thread (Some PReturned)
              (set_shared (set_tsq_out ({| queue := []; done := true |},
                                        log ++ [RPopped (tid TOutput) None])
                             (shared s)) s))
| o_print value :
    output_thread s = Some (PPrint value) ->
    move s (set_output_thread (Some PPop)
              (set_shared (set_cout (cout (shared s) ++ [line value]) (shared s)) s))
| i_line_push l rest :
    input_thread s = Some RGetLine -> cin (shared s) = l :: rest ->
    accepted env config l = true ->
    move s (set_shared (set_tsq_in (exec (CPush (tid TInput) l) (tsq_in (shared s)))
                          (set_cin rest (shared s))) s)
| i_line_skip l rest :
    input_thread s = Some RGetLine -> cin (shared s) = l :: rest ->
    accepted env config l = false ->
    move s (set_shared (set_cin rest (shared s)) s)
| i_eof :
    input_thread s = Some RGetLine -> cin (shared s) = [] ->
    move s (set_input_thread (Some RClose) s)
| i_close :
    input_thread s = Some RClose ->
    move s (set_input_thread (Some RReturned)
              (set_shared (set_tsq_in (exec (CClose (tid TInput)) (tsq_in (shared s)))
                             (shared s)) s)).

(** The work items of the run: the operands of the command line when the
    program reads no pipe, the accepted lines of its input otherwise. *)
Definition items : list string :=
  if isatty then image_files config else filter (accepted env config) stdin.

(** The work items not yet pushed onto the input queue. *)
Definition pending (s : system) : list string :=
  if isatty then
    match main s with
    | AtStartOutput | AtSpawnWorkers _ | AtIsatty => image_files config
    | AtPushFiles rest => rest
    | _ => []
    end
  else filter (accepted env config) (cin (shared s)).

(** [main] is past the production of the work items. *)
Definition produced (pc : main_pc) : bool :=
  match pc with
  | AtJoinWorkers _ | AtCloseOut | AtJoinOutput | AtReturn => true
  | _ => false
  end.

(** Whether the input queue is closed, read off the control state. *)
Definition in_closed (s : system) : bool :=
  if isatty then produced (main s)
  else match input_thread s with Some RReturned => true | _ => false end.

(** The two modes of production do not mix, and the input thread is where
    [main] expects it. *)
Definition mode (s : system) : Prop :=
  match main s with
  | AtStartOutput | AtSpawnWorkers _ | AtIsatty => input_thread s = None
  | AtPushFiles _ | AtCloseIn => isatty = true /\ input_thread s = None
  | AtStartInput => isatty = false /\ input_thread s = None
  | AtJoinInput => isatty = false /\ input_thread s <> None
  | AtJoinWorkers _ | AtCloseOut | AtJoinOutput | AtReturn =>
      if isatty then input_thread s = None else input_thread s = Some RReturned
  end.

(** The control state of the threads other than the workers. *)
Definition control (s : system) : Prop :=
  mode s /\
  done (fst (tsq_in (shared s))) = in_closed s /\
  (input_thread s = Some RClose \/ input_thread s = Some RReturned ->
   cin (shared s) = []) /\
  (output_thread s = None <-> main s = AtStartOutput) /\
  (main s = AtReturn -> output_thread s = Some PReturned).

(** A thread that has seen the end of a stream has seen the queue closed
    and empty, and the queue has stayed so. *)
Definition drained (s : system) : Prop :=
  (In WReturned (worker_threads s) ->
   fst (tsq_in (shared s)) = {| queue := []; done := true |}) /\
  (output_thread s = Some PReturned ->
   fst (tsq_out (shared s)) = {| queue := []; done := true |}).

(** The books: what went into each queue and what came out of it. *)
Definition books (s : system) : Prop :=
  conserved (tsq_in (shared s)) /\
  conserved (tsq_out (shared s)) /\
  pushed (snd (tsq_in (shared s))) ++ pending s = items /\
  (length (pushed (snd (tsq_out (shared s)))) + length (cerr (shared s))
   + holding (worker_threads s)
   = length (returned (snd (tsq_in (shared s)))))%nat /\
  map line (returned (snd (tsq_out (shared s))))
  = cout (shared s) ++ map line (printing s).

(** Both queues are used as their contract asks. *)
Definition contract (s : system) : Prop :=
  respected (tsq_in (shared s)) /\ respected (tsq_out (shared s)).

Definition ledger (s : system) : Prop :=
  invariant config s /\ control s /\ drained s /\ books s /\ contract s.

End Books.

Arguments move {image score}.
Arguments items {image score}.
Arguments pending {image score}.
Arguments books {image score}.
Arguments ledger {image score}.

End Ledger.

(* ------------------------------------------------------------------ *)
(** ** tsqueue with its condition variable *)

Module Monitor.
Import TSQueue.

(** The queue together with the threads inside [cv.wait]: [waiters] are
    blocked in it, [woken] have been woken and have yet to reacquire the
    mutex and test the predicate again.  [push] and [close] release the
    mutex before they notify: [push_notifies] and [close_notifies] count
    the calls that stand between the two.  [returns] lists, in order, the
    calls of [pop] that have returned, with the caller and the value. *)
Record monitor : Type := mk_monitor {
  content : tsqueue;
  waiters : list nat;
  woken : list nat;
  push_notifies : nat;
  close_notifies : nat;
  returns : list (nat * option string)
}.

(** A default-constructed [tsqueue] with nobody inside. *)
Definition idle : monitor := mk_monitor fresh [] [] 0 0 [].

(** Take the [k]-th thread out of a list, the last one if the list is
    shorter: which waiting thread a notification wakes, and which woken
    thread gets the mutex next, is not for the program to say. *)
Fixpoint take (k : nat) (l : list nat) {struct l} : option (nat * list nat) :=
  match l with
  | [] => None
  | t :: r =>
      match k with
      | O => Some (t, r)
      | S j =>
          match take j r with
          | Some (u, r') => Some (u, t :: r')
          | None => Some (t, [])
          end
      end
  end.

(** [tsqueue::pop] once [cv.wait] has returned: lines 55-62, for thread
    [t] holding the mutex. *)
Definition leave (t : nat) (m : monitor) : monitor :=
  match pop (content m) with
  | Popped v q' =>
      mk_monitor q' (waiters m) (woken m) (push_notifies m) (close_notifies m)
        (returns m ++ [(t, v)])
  | Waiting => m
  end.

(** One test of the predicate by thread [t] holding the mutex, as the loop
    of [cv.wait(lock, pred)] performs it: go on when it holds, release the
    mutex and block when it does not. *)
Definition test (t : nat) (m : monitor) : monitor :=
  if wait_predicate (content m) then leave t m
  else mk_monitor (content m) (waiters m ++ [t]) (woken m) (push_notifies m)
         (close_notifies m) (returns m).

Inductive action : Type :=
| PushLocked (value : string)
| NotifyOne (k : nat)
| CloseLocked
| NotifyAll
| PopEnter (t : nat)
| SpuriousWake (k : nat)
| PopResume (k : nat).

(** What each action does.  [PushLocked] and [CloseLocked] are the blocks
    under [lock_guard] of [push] and [close]; [NotifyOne] and [NotifyAll]
    are the calls that follow them, possible only when one is due;
    [PopEnter] is a call of [pop] up to its first test; [PopResume] is a
    woken thread testing again; [SpuriousWake] is a wake-up nobody asked
    for, which [cv.wait] allows. *)
Definition act (a : action) (m : monitor) : monitor :=
  match a with
  | PushLocked value =>
      mk_monitor (push value (content m)) (waiters m) (woken m)
        (S (push_notifies m)) (close_notifies m) (returns m)
  | NotifyOne k =>
      match push_notifies m with
      | O => m
      | S due =>
          match take k (waiters m) with
          | None =>
              mk_monitor (content m) (waiters m) (woken m) due (close_notifies m)
                (returns m)
          | Some (t, rest) =>
              mk_monitor (content m) rest (woken m ++ [t]) due (close_notifies m)
                (returns m)
          end
      end
  | CloseLocked =>
      mk_monitor (close (content m)) (waiters m) (woken m) (push_notifies m)
        (S (close_notifies m)) (returns m)
  | NotifyAll =>
      match close_notifies m with
      | O => m
      | S due =>
          mk_monitor (content m) [] (woken m ++ waiters m) (push_notifies m) due
            (returns m)
      end
  | PopEnter t => test t m
  | SpuriousWake k =>
      match take k (waiters m) with
      | None => m
      | Some (t, rest) =>
          mk_monitor (content m) rest (woken m ++ [t]) (push_notifies m)
            (close_notifies m) (returns m)
      end
  | PopResume k =>
      match take k (woken m) with
      | None => m
      | Some (t, rest) =>
          test t (mk_monitor (content m) (waiters m) rest (push_notifies m)
                    (close_notifies m) (returns m))
      end
  end.

Definition run_monitor (acts : list action) (m : monitor) : monitor :=
  fold_left (fun m a => act a m) acts m.


End Monitor.

(* ------------------------------------------------------------------ *)
(** * Properties *)

Section QueueFacts.
Import TSQueue.

(** ** The queue: basic facts *)

Lemma push_all_queue xs : forall q, queue (push_all xs q) = queue q ++ xs.
Proof.
  induction xs as [|x xs IH]; intro q; simpl.
  - now rewrite app_nil_r.
  - unfold push_all in IH. rewrite IH. simpl. now rewrite <- app_assoc.
Qed.

Lemma push_all_done xs : forall q, done (push_all xs q) = done q.
Proof.
  induction xs as [|x xs IH]; intro q; simpl; [reflexivity|].
  unfold push_all in IH. now rewrite IH.
Qed.

Lemma pop_cons v rest d :
  pop {| queue := v :: rest; done := d |} = Popped (Some v) {| queue := rest; done := d |}.
Proof. reflexivity. Qed.

Lemma pop_closed_empty : pop {| queue := []; done := true |} = Popped None {| queue := []; done := true |}.
Proof. reflexivity. Qed.

Lemma pop_seq_drain items : forall d,
  pop_seq (length items) {| queue := items; done := d |}
  = Some (map Some items, {| queue := []; done := d |}).
Proof.
  induction items as [|v items IH]; intro d; cbn [pop_seq length map]; [reflexivity|].
  rewrite pop_cons, IH. reflexivity.
Qed.

Lemma pop_seq_closed_empty m :
  pop_seq m {| queue := []; done := true |}
  = Some (repeat None m, {| queue := []; done := true |}).
Proof.
  induction m as [|m IH]; cbn [pop_seq repeat]; [reflexivity|].
  rewrite pop_closed_empty, IH. reflexivity.
Qed.

Lemma pop_seq_app n m : forall q vs q',
  pop_seq n q = Some (vs, q') ->
  pop_seq (n + m) q =
  match pop_seq m q' with
  | None => None
  | Some (ws, q'') => Some (vs ++ ws, q'')
  end.
Proof.
  induction n as [|n IH]; intros q vs q' H; cbn [pop_seq Nat.add] in *.
  - inversion H; subst. destruct (pop_seq m q') as [[ws q'']|]; reflexivity.
  - destruct (pop q) as [|v q1]; [discriminate|].
    destruct (pop_seq n q1) as [[vs1 q2]|] eqn:E; [|discriminate].
    inversion H; subst. rewrite (IH _ _ _ E).
    destruct (pop_seq m q') as [[ws q'']|]; reflexivity.
Qed.

Lemma tsqueue_eta q : q = {| queue := queue q; done := done q |}.
Proof. now destruct q. Qed.

(** *** Push after close *)

(** C1, as stated, fails: on a closed queue holding [a.png], [push] still
    appends, so the item sequence changes and the late item is handed out
    by [pop]. *)
Lemma push_after_close_is_not_noop :
  ~ (forall (q : tsqueue) (item : string),
        done q = true -> queue (push item q) = queue q).
Proof.
  intro H.
  specialize (H {| queue := ["a.png"%string]; done := true |} "late.png"%string eq_refl).
  discriminate H.
Qed.

(** C1 (amended): on a closed queue [push] appends the item at the tail and
    leaves the closed flag set; draining the queue afterwards hands out the
    earlier items and then the late one, and only then does [pop] report
    end-of-stream. *)
Theorem push_after_close_appends (q : tsqueue) (item : string) :
  done q = true ->
  queue (push item q) = queue q ++ [item] /\
  done (push item q) = true /\
  pop_seq (length (queue q) + 2) (push item q)
  = Some (map Some (queue q) ++ [Some item; None], {| queue := []; done := true |}).
Proof.
  intro Hd. split; [reflexivity|]. split; [exact Hd|].
  replace (length (queue q) + 2) with (length (queue q ++ [item]) + 1)
    by (rewrite length_app; simpl; lia).
  unfold push. rewrite Hd.
  rewrite (pop_seq_app _ 1 _ _ _ (pop_seq_drain (queue q ++ [item]) true)).
  cbn [pop_seq]. rewrite pop_closed_empty.
  rewrite map_app. cbn [map]. rewrite <- app_assoc. reflexivity.
Qed.

Lemma push_after_close_appends_witness :
  let q := {| queue := ["a.png"%string]; done := true |} in
  done q = true /\
  queue (push "late.png" q) = queue q ++ ["late.png"%string] /\
  done (push "late.png" q) = true /\
  pop_seq (length (queue q) + 2) (push "late.png" q)
  = Some (map Some (queue q) ++ [Some "late.png"%string; None], {| queue := []; done := true |}).
Proof.
  split; [reflexivity|].
  apply (push_after_close_appends {| queue := ["a.png"%string]; done := true |} "late.png").
  reflexivity.
Defined.

(** *** End of stream *)

(** C2: [pop] reports end-of-stream exactly when the queue is closed and
    empty at the moment it is observed, and then leaves the state as it is,
    so the answer repeats on every later call; with an item present it
    removes and returns the head whatever the flag; on an empty open queue
    the call stays parked. *)
Theorem pop_end_of_stream_iff (q : tsqueue) :
  ((exists q', pop q = Popped None q') <-> (done q = true /\ queue q = [])) /\
  (forall q', pop q = Popped None q' ->
     q' = q /\ forall m, pop_seq m q' = Some (repeat None m, q')) /\
  (forall v rest, queue q = v :: rest ->
     pop q = Popped (Some v) {| queue := rest; done := done q |}) /\
  (queue q = [] -> done q = false -> pop q = Waiting).
Proof.
  destruct q as [items d]. unfold pop, wait_predicate. cbn [queue done].
  split; [split|split; [|split]].
  - intros [q' H]. destruct items as [|v rest]; destruct d; cbn in H;
      try discriminate; split; reflexivity.
  - intros [Hd Hq]. subst. eexists. reflexivity.
  - intros q' H. destruct items as [|v rest]; destruct d; cbn in H; try discriminate.
    inversion H; subst. split; [reflexivity|]. intro m. apply pop_seq_closed_empty.
  - intros v rest H. subst. reflexivity.
  - intros Hq Hd. subst. reflexivity.
Qed.

Lemma pop_end_of_stream_iff_witness :
  (exists q', pop {| queue := []; done := true |} = Popped None q') /\
  pop_seq 3 {| queue := []; done := true |}
  = Some ([None; None; None], {| queue := []; done := true |}) /\
  pop {| queue := ["a.png"%string; "b.png"%string]; done := false |}
  = Popped (Some "a.png"%string) {| queue := ["b.png"%string]; done := false |} /\
  pop fresh = Waiting.
Proof.
  split.
  - apply (proj1 (pop_end_of_stream_iff {| queue := []; done := true |})).
    split; reflexivity.
  - split.
    + apply (proj1 (proj2 (pop_end_of_stream_iff {| queue := []; done := true |}))
               _ eq_refl).
    + split.
      * apply (proj1 (proj2 (proj2 (pop_end_of_stream_iff
                 {| queue := ["a.png"%string; "b.png"%string]; done := false |})))).
        reflexivity.
      * apply (proj2 (proj2 (proj2 (pop_end_of_stream_iff fresh)))); reflexivity.
Defined.

(** *** Schedules: what goes in comes out *)

Lemma pushed_app l1 l2 : pushed (l1 ++ l2) = pushed l1 ++ pushed l2.
Proof.
  induction l1 as [|r l1 IH]; [reflexivity|].
  destruct r; cbn [app pushed]; rewrite IH; reflexivity.
Qed.

Lemma returned_app l1 l2 : returned (l1 ++ l2) = returned l1 ++ returned l2.
Proof.
  induction l1 as [|r l1 IH]; [reflexivity|].
  destruct r as [? ?|? [?|]|?|?]; cbn [app returned]; rewrite IH; reflexivity.
Qed.

Lemma parked_app l1 l2 : parked (l1 ++ l2) = parked l1 + parked l2.
Proof.
  induction l1 as [|r l1 IH]; [reflexivity|].
  destruct r; cbn [app parked]; rewrite IH; reflexivity.
Qed.

Lemma run_app s1 s2 st : run (s1 ++ s2) st = run s2 (run s1 st).
Proof. unfold run. apply fold_left_app. Qed.

Lemma exec_conserved c st : conserved st -> conserved (exec c st).
Proof.
  destruct st as [[items d] log]. unfold conserved. cbn [fst snd queue].
  intro H. destruct c as [t v|t|t]; cbn [exec].
  - cbn [fst snd push queue]. rewrite pushed_app, returned_app. cbn [pushed returned].
    rewrite app_nil_r, app_assoc, H. reflexivity.
  - unfold pop, wait_predicate. cbn [queue done].
    destruct items as [|v rest]; [destruct d|]; cbn [empty negb orb fst snd queue];
      rewrite pushed_app, returned_app; cbn [pushed returned];
      rewrite ?app_nil_r in *; try exact H.
    rewrite <- app_assoc. exact H.
  - cbn [fst snd close queue]. rewrite pushed_app, returned_app. cbn [pushed returned].
    rewrite !app_nil_r. exact H.
Qed.

Lemma run_conserved sched : forall st, conserved st -> conserved (run sched st).
Proof.
  induction sched as [|c sched IH]; intros st H; [exact H|].
  cbn [run fold_left]. apply IH, exec_conserved, H.
Qed.

Lemma run_cons c sched st : run (c :: sched) st = run sched (exec c st).
Proof. reflexivity. Qed.

Lemma run_pops_closed consumers : forall items log,
  let st := run (map CPop consumers) ({| queue := items; done := true |}, log) in
  fst st = {| queue := skipn (length consumers) items; done := true |} /\
  parked (snd st) = parked log /\
  pushed (snd st) = pushed log.
Proof.
  induction consumers as [|t cs IH]; intros items log; cbn zeta.
  - cbn. auto.
  - cbn [map length]. rewrite run_cons. cbn [exec].
    destruct items as [|v rest].
    + rewrite pop_closed_empty.
      destruct (IH [] (log ++ [RPopped t None])) as (Hq & Hp & Hs).
      rewrite Hq, Hp, Hs, parked_app, pushed_app, !skipn_nil. cbn [parked pushed].
      rewrite Nat.add_0_r, app_nil_r. auto.
    + rewrite pop_cons.
      destruct (IH rest (log ++ [RPopped t (Some v)])) as (Hq & Hp & Hs).
      rewrite Hq, Hp, Hs, parked_app, pushed_app. cbn [parked pushed skipn].
      rewrite Nat.add_0_r, app_nil_r. auto.
Qed.

Lemma run_close_done sched t st : done (fst (run (sched ++ [CClose t]) st)) = true.
Proof.
  rewrite run_app. destruct (run sched st) as [q log]. reflexivity.
Qed.

(** C4: take any schedule of pushes, pops and closes by any threads, then a
    [close()], then pops issued by any consumers in any order.  At the end
    the items handed out, followed by the items still queued, are exactly
    the items pushed, occurrence by occurrence: none is lost and none is
    handed out twice.  No pop issued after the close stays parked, and as
    soon as the consumers have issued as many pops as there were items
    left at the close, everything pushed has been handed out. *)
Theorem no_item_lost_or_duplicated (pre : list call) (t : nat) (consumers : list nat) :
  let st1 := run (pre ++ [CClose t]) (fresh, []) in
  let st2 := run (map CPop consumers) st1 in
  returned (snd st2) ++ queue (fst st2) = pushed (snd st1) /\
  parked (snd st2) = parked (snd st1) /\
  (length (queue (fst st1)) <= length consumers ->
   returned (snd st2) = pushed (snd st1) /\ queue (fst st2) = []).
Proof.
  cbn zeta.
  assert (Hc : conserved (run (map CPop consumers) (run (pre ++ [CClose t]) (fresh, [])))).
  { apply run_conserved, run_conserved. reflexivity. }
  pose proof (run_close_done pre t (fresh, [])) as Hd.
  destruct (run (pre ++ [CClose t]) (fresh, [])) as [[items d] log] eqn:E1.
  cbn [fst snd done queue] in *. subst d.
  destruct (run_pops_closed consumers items log) as (Hq & Hp & Hs).
  unfold conserved in Hc. rewrite Hs in Hc.
  split; [exact Hc|]. split; [exact Hp|].
  intro Hlen. rewrite Hq in Hc |- *. cbn [queue] in *.
  rewrite skipn_all2 in Hc |- * by exact Hlen.
  rewrite app_nil_r in Hc. auto.
Qed.

Lemma no_item_lost_or_duplicated_witness :
  let pre := [CPush 0 "a.png"%string; CPop 1; CPush 0 "b.png"%string;
              CPush 0 "a.png"%string] in
  let st1 := run (pre ++ [CClose 0]) (fresh, []) in
  let st2 := run (map CPop [2; 1; 2]) st1 in
  length (queue (fst st1)) <= length [2; 1; 2] /\
  returned (snd st2) = ["a.png"%string; "b.png"%string; "a.png"%string] /\
  queue (fst st2) = [].
Proof.
  cbn zeta. split; [vm_compute; lia|].
  apply (no_item_lost_or_duplicated
           [CPush 0 "a.png"%string; CPop 1; CPush 0 "b.png"%string;
            CPush 0 "a.png"%string] 0 [2; 1; 2]).
  vm_compute; lia.
Defined.

(** *** FIFO *)

Lemma pushed_run_pushes t xs : forall q log,
  run (map (CPush t) xs) (q, log) = (push_all xs q, log ++ map (RPushed t) xs).
Proof.
  induction xs as [|x xs IH]; intros q log; cbn [map run fold_left exec push_all].
  - now rewrite app_nil_r.
  - fold (run (map (CPush t) xs)). rewrite IH. unfold push_all.
    now rewrite <- app_assoc.
Qed.

(** C6: one producer pushes [xs] with no close in between; the pops that
    follow hand the items out in push order, after whatever was queued
    before.  From a fresh queue, [length xs] pops return exactly [xs].
    When pops are issued while the producer is still pushing, under any
    schedule, what has been handed out so far is an initial segment of
    what has been pushed so far, in the same order. *)
Theorem push_then_pop_fifo (xs : list string) (q : tsqueue) :
  pop_seq (length (queue q) + length xs) (push_all xs q)
  = Some (map Some (queue q ++ xs), {| queue := []; done := done q |}) /\
  pop_seq (length xs) (push_all xs fresh) = Some (map Some xs, fresh) /\
  forall sched : list call,
    let st := run sched (fresh, []) in
    returned (snd st) = firstn (length (returned (snd st))) (pushed (snd st)).
Proof.
  assert (H : forall q0, pop_seq (length (queue q0) + length xs) (push_all xs q0)
                 = Some (map Some (queue q0 ++ xs), {| queue := []; done := done q0 |})).
  { intro q0. rewrite (tsqueue_eta (push_all xs q0)), push_all_queue, push_all_done.
    rewrite <- length_app. apply pop_seq_drain. }
  split; [apply H|]. split; [exact (H fresh)|].
  intro sched. cbn zeta.
  assert (Hc : conserved (run sched (fresh, []))) by (apply run_conserved; reflexivity).
  unfold conserved in Hc. rewrite <- Hc.
  rewrite firstn_app, Nat.sub_diag, firstn_all. cbn [firstn]. now rewrite app_nil_r.
Qed.

(** *** Close *)

Lemma close_close q : close (close q) = close q.
Proof. reflexivity. Qed.

Lemma close_n_S n q : close_n (S n) q = close q.
Proof.
  induction n as [|n IH]; [reflexivity|].
  change (close_n (S (S n)) q) with (close (close_n (S n) q)).
  rewrite IH. apply close_close.
Qed.

(** C7: however many times [close()] is called, at least once, the queue
    ends in the state one call gives: closed, with the items it had.  Those
    items can still be drained in order, and from then on every [pop]
    reports end-of-stream at once. *)
Theorem close_idempotent (n : nat) (q : tsqueue) :
  close_n (S n) q = close q /\
  done (close q) = true /\
  queue (close q) = queue q /\
  forall m,
    pop_seq (length (queue q) + m) (close_n (S n) q)
    = Some (map Some (queue q) ++ repeat None m, {| queue := []; done := true |}).
Proof.
  rewrite close_n_S. repeat split.
  intro m. unfold close.
  rewrite (pop_seq_app _ m _ _ _ (pop_seq_drain (queue q) true)).
  rewrite pop_seq_closed_empty. reflexivity.
Qed.

End QueueFacts.

(* ------------------------------------------------------------------ *)
(** ** The bound check of [yolo::predict] *)

Section PredictFacts.
Import Yolo.
Local Open Scope Z_scope.

Lemma to_size_t_of_nat (n : nat) : Z.of_nat n < 2 ^ 64 -> to_size_t (Z.of_nat n) = Z.of_nat n.
Proof. intro H. unfold to_size_t. apply Z.mod_small. lia. Qed.

(** The check lets the index [class_names.size()] through, and the
    subscript at that index is past the end. *)
Lemma bound_check_admits_size (class_names : list string) :
  Z.of_nat (length class_names) < 2 ^ 64 ->
  bound_check class_names (Z.of_nat (length class_names)) = true /\
  subscript class_names (Z.of_nat (length class_names))
  = PastTheEnd (Z.of_nat (length class_names)) (Z.of_nat (length class_names)).
Proof.
  intro H. unfold bound_check, subscript. rewrite to_size_t_of_nat by exact H.
  split; [apply Z.leb_refl|].
  rewrite Nat2Z.id.
  assert (E : nth_error class_names (length class_names) = None)
    by (apply nth_error_None; lia).
  now rewrite E.
Qed.

(** What the check does guarantee: an admitted index is at most the size,
    and the subscript is in range exactly when it is strictly below. *)
Lemma bound_check_spec (class_names : list string) (class_index : Z) :
  bound_check class_names class_index = true ->
  to_size_t class_index <= Z.of_nat (length class_names) /\
  ((exists name, subscript class_names class_index = Value name) <->
   to_size_t class_index < Z.of_nat (length class_names)).
Proof.
  unfold bound_check, subscript. intro H. apply Z.leb_le in H. split; [exact H|].
  assert (Hnn : 0 <= to_size_t class_index)
    by (unfold to_size_t; apply Z.mod_pos_bound; lia).
  destruct (nth_error class_names (Z.to_nat (to_size_t class_index))) as [s|] eqn:E.
  - split; [intros _|intros _; eauto].
    assert (Hlt : (Z.to_nat (to_size_t class_index) < length class_names)%nat)
      by (apply nth_error_Some; congruence).
    lia.
  - split; [intros [name Hn]; discriminate|].
    intro Hlt. apply nth_error_None in E. lia.
Qed.

(** C3 at a model with three outputs and a class file of two names: the
    third-ranked class has index 2, the check admits it, and the loop
    subscripts the two-element name list at 2. *)
Example predict_subscripts_past_the_end :
  let class_names := ["cat"%string; "dog"%string] in
  let indexed_scores := index_scores [90%Z; 7%Z; 3%Z] in
  indexed_scores = [(0%Z, 90%Z); (1%Z, 7%Z); (2%Z, 3%Z)] /\
  bound_check class_names 2 = true /\
  ~ (2 < Z.of_nat (length class_names)) /\
  top_predictions class_names 3 indexed_scores = PastTheEnd 2 2 /\
  top_predictions class_names 3 (index_scores [90%Z; 7%Z])
  = Value [mk_prediction "cat"%string 90%Z; mk_prediction "dog"%string 7%Z] /\
  top_predictions [] 1 (index_scores [90%Z; 7%Z]) = PastTheEnd 0 0 /\
  top_predictions ["cat"%string] 2 [(0%Z, 90%Z); (5%Z, 7%Z)]
  = Value [mk_prediction "cat"%string 90%Z; mk_prediction "class_5"%string 7%Z].
Proof.
  cbn zeta. repeat split; try reflexivity. vm_compute. intro H. discriminate H.
Qed.

End PredictFacts.

(* ------------------------------------------------------------------ *)
(** ** The argument parser *)

Section ParserFacts.
Import Utils.
Local Open Scope Z_scope.

Lemma to_unsigned_range v : is_unsigned (to_unsigned v).
Proof. unfold is_unsigned, to_unsigned. apply Z.mod_pos_bound. lia. Qed.

Lemma default_configuration_threads hw result :
  default_configuration hw = Ok result -> is_unsigned (threads result).
Proof.
  unfold default_configuration.
  destruct (string_unit_to_numeric "100mb") as [n|e]; cbn [bind]; [|discriminate].
  intro H. inversion H; subst. cbn [threads]. apply to_unsigned_range.
Qed.

Lemma options_loop_threads opts : forall result result',
  options_loop opts result = Returned result' ->
  is_unsigned (threads result) -> is_unsigned (threads result').
Proof.
  induction opts as [|[opt xoptarg] rest IH]; intros result result' H Hr.
  - inversion H; subst. exact Hr.
  - cbn [options_loop] in H.
    destruct opt as [[] [] [] [] [] [] [] []];
      try discriminate H;
      repeat match type of H with
             | context [match ?x with _ => _ end] => destruct x; try discriminate H
             end;
      (apply IH in H; [exact H | first [exact Hr | apply to_unsigned_range]]).
Qed.

(** C10: whenever [parse_arguments] returns, the configuration has at
    least one thread (and the count fits an [unsigned int]); with
    [--threads 0] as the only option it returns with [threads = 1]. *)
Theorem parse_arguments_threads_positive
        (hardware_concurrency argc : Z) (opts : list (ascii * string))
        (operands : list string) (config : configuration) :
  parse_arguments hardware_concurrency argc opts operands = Returned config ->
  1 <= threads config < 2 ^ 32 /\
  exists config0,
    parse_arguments hardware_concurrency argc [("t"%char, "0"%string)] operands
    = Returned config0 /\ threads config0 = 1.
Proof.
  unfold parse_arguments. destruct (argc =? 1); [discriminate|].
  destruct (default_configuration hardware_concurrency) as [result|e] eqn:Ed;
    [|discriminate].
  intro H. split.
  - destruct (options_loop opts result) as [result'| |e] eqn:El; try discriminate.
    inversion H; subst; clear H.
    pose proof (options_loop_threads _ _ _ El (default_configuration_threads _ _ Ed)) as Hr.
    unfold is_unsigned in Hr.
    cbn [threads set_threads set_image_files] in *.
    destruct (threads result' =? 0) eqn:E0; cbn [threads set_threads set_image_files].
    + lia.
    + apply Z.eqb_neq in E0. lia.
  - eexists. split; reflexivity.
Qed.

Lemma parse_arguments_threads_positive_witness :
  parse_arguments 0 3 [("t"%char, "0"%string)] ["fox.png"%string]
  = Returned (mk_configuration "" "" 5 1 false false 104857600 false ["fox.png"%string]) /\
  1 <= 1 < 2 ^ 32.
Proof.
  split; [reflexivity|].
  apply (parse_arguments_threads_positive 0 3 [("t"%char, "0"%string)] ["fox.png"%string]
           (mk_configuration "" "" 5 1 false false 104857600 false ["fox.png"%string])
           eq_refl).
Defined.

End ParserFacts.

(* ------------------------------------------------------------------ *)
(** ** The thread functions *)

Section ThreadFacts.
Import TSQueue Yolo Utils Outcome.

Variables image score : Type.
Variable env : environment image score.
Variable c : configuration.

(** *** The streaming producer *)

Lemma get_line_body_spec tid line w :
  get_line_body env c tid line w
  = if accepted env c line then set_tsq_in (exec (CPush tid line) (tsq_in w)) w else w.
Proof.
  unfold get_line_body, accepted.
  destruct (disable_extension_check c); cbn [negb orb]; reflexivity.
Qed.

Lemma get_line_loop_spec tid lines : forall w,
  get_line_loop env c tid lines w
  = mk_world (run (map (CPush tid) (filter (accepted env c) lines)) (tsq_in w))
      (tsq_out w) [] (cout w) (cerr w).
Proof.
  induction lines as [|line rest IH]; intro w; cbn [get_line_loop filter].
  - reflexivity.
  - rewrite IH, get_line_body_spec.
    destruct (accepted env c line); reflexivity.
Qed.

(** C8: run on the input lines [cin w], [thread_get_line] pushes onto the
    input queue the accepted lines, all of them and only them, in input
    order, then closes the queue; its calls on the queue are those pushes
    followed by one [close()], also when no line is accepted or read.  It
    writes nothing to [cerr] or [cout] and leaves the output queue alone. *)
Theorem thread_get_line_pushes_accepted (tid : nat) (w : world) :
  let kept := filter (accepted env c) (cin w) in
  let w' := thread_get_line env c tid w in
  fst (tsq_in w') = close (push_all kept (fst (tsq_in w))) /\
  snd (tsq_in w') = snd (tsq_in w) ++ map (RPushed tid) kept ++ [RClosed tid] /\
  cin w' = [] /\
  cerr w' = cerr w /\
  cout w' = cout w /\
  tsq_out w' = tsq_out w.
Proof.
  cbn zeta. unfold thread_get_line. rewrite get_line_loop_spec.
  destruct w as [[q log] out stdin o e]. cbn [tsq_in tsq_out cin cout cerr set_tsq_in].
  rewrite pushed_run_pushes. cbn [exec fst snd].
  rewrite <- app_assoc. repeat split.
Qed.

(** *** The worker *)

Lemma failure_classify path e : failure env c path e -> classify env c path = Throw e.
Proof.
  intro H. unfold classify.
  destruct H as [Hr | Hr Hs | sz Hr Hs Hb | sz img Hr Hs Hb Hi He
                 | sz img e Hr Hs Hb Hi He Hp];
    rewrite Hr; cbn [bind negb]; try reflexivity;
    rewrite Hs; cbn [bind].
  - reflexivity.
  - destruct (Z.eqb_spec sz 0); [lia|].
    destruct (Z.ltb_spec (max_filesize c) sz); [reflexivity|lia].
  - destruct (Z.eqb_spec sz 0); [lia|].
    destruct (Z.ltb_spec (max_filesize c) sz); [lia|].
    rewrite Hi. cbn [bind]. rewrite He. reflexivity.
  - destruct (Z.eqb_spec sz 0); [lia|].
    destruct (Z.ltb_spec (max_filesize c) sz); [lia|].
    rewrite Hi. cbn [bind]. rewrite He, Hp. reflexivity.
Qed.

Lemma diagnostic_mentions value e : mentions value (diagnostic value e).
Proof.
  exists "yolo-cls: could not process the file '"%string,
         ("': " +++ what e +++ endl). reflexivity.
Qed.

(** One turn of the worker loop on a value whose processing throws. *)
Lemma thread_classify_throw fuel tid w value rest d log e :
  tsq_in w = ({| queue := value :: rest; done := d |}, log) ->
  classify env c value = Throw e ->
  thread_classify env c (S fuel) tid w
  = thread_classify env c fuel tid
      (mk_world ({| queue := rest; done := d |}, log ++ [RPopped tid (Some value)])
         (tsq_out w) (cin w) (cout w) (cerr w ++ [diagnostic value e])).
Proof.
  intros Hq Hc. cbn [thread_classify]. rewrite Hq. cbn [fst exec].
  rewrite pop_cons. unfold classify_body. rewrite Hc. reflexivity.
Qed.

(** One turn of the worker loop on a value whose processing succeeds. *)
Lemma thread_classify_ok fuel tid w value rest d log result :
  tsq_in w = ({| queue := value :: rest; done := d |}, log) ->
  classify env c value = Ok result ->
  thread_classify env c (S fuel) tid w
  = thread_classify env c fuel tid
      (mk_world ({| queue := rest; done := d |}, log ++ [RPopped tid (Some value)])
         (exec (CPush tid result) (tsq_out w)) (cin w) (cout w) (cerr w)).
Proof.
  intros Hq Hc. cbn [thread_classify]. rewrite Hq. cbn [fst exec].
  rewrite pop_cons. unfold classify_body. rewrite Hc. reflexivity.
Qed.

(** On a closed input queue the worker returns once it has popped every
    item and then the end of stream. *)
Lemma thread_classify_finishes tid items : forall w log,
  tsq_in w = ({| queue := items; done := true |}, log) ->
  exists w', thread_classify env c (S (length items)) tid w = Finished w' /\
             fst (tsq_in w') = {| queue := []; done := true |}.
Proof.
  induction items as [|value rest IH]; intros w log Hq.
  - cbn [thread_classify length]. rewrite Hq. cbn [fst exec].
    rewrite pop_closed_empty. eexists. split; reflexivity.
  - cbn [length]. destruct (classify env c value) as [result|e] eqn:Hc.
    + rewrite (thread_classify_ok _ _ _ _ _ _ _ _ Hq Hc). eapply IH. reflexivity.
    + rewrite (thread_classify_throw _ _ _ _ _ _ _ _ Hq Hc). eapply IH. reflexivity.
Qed.

Lemma records_app (a b : list string) :
  records env c (a ++ b) = records env c a ++ records env c b.
Proof.
  induction a as [|x a IH]; [reflexivity|]. cbn [app records].
  destruct (classify env c x); rewrite IH; reflexivity.
Qed.

Lemma diagnostics_app (a b : list string) :
  diagnostics env c (a ++ b) = diagnostics env c a ++ diagnostics env c b.
Proof.
  induction a as [|x a IH]; [reflexivity|]. cbn [app diagnostics].
  destruct (classify env c x); rewrite IH; reflexivity.
Qed.

(** The last turn of the worker loop, on a drained queue. *)
Lemma thread_classify_end tid w d log :
  tsq_in w = ({| queue := []; done := d |}, log) ->
  thread_classify env c 1 tid w
  = ending d (set_tsq_in ({| queue := []; done := d |}, log ++ [last_pop d tid]) w).
Proof.
  intro Hq. cbn [thread_classify]. rewrite Hq. cbn [fst exec].
  destruct d; reflexivity.
Qed.

(** The world the worker ends in when it runs alone on [items]. *)
Lemma thread_classify_whole tid items : forall w d log,
  tsq_in w = ({| queue := items; done := d |}, log) ->
  thread_classify env c (S (length items)) tid w
  = ending d
      (mk_world
         ({| queue := []; done := d |}, log ++ pops tid items ++ [last_pop d tid])
         (run (map (CPush tid) (records env c items)) (tsq_out w))
         (cin w) (cout w) (cerr w ++ diagnostics env c items)).
Proof.
  induction items as [|value rest IH]; intros w d log Hq.
  - rewrite (thread_classify_end _ _ _ _ Hq). destruct w.
    cbn. now rewrite app_nil_r.
  - cbn [length records diagnostics pops map].
    destruct (classify env c value) as [result|e] eqn:Hc.
    + rewrite (thread_classify_ok (S (length rest)) tid w value rest d log result Hq Hc).
      erewrite IH by reflexivity. cbn [tsq_out cin cout cerr map].
      rewrite run_cons, <- app_assoc. reflexivity.
    + rewrite (thread_classify_throw (S (length rest)) tid w value rest d log e Hq Hc).
      erewrite IH by reflexivity. cbn [tsq_out cin cout cerr].
      rewrite <- !app_assoc. reflexivity.
Qed.

(** C5: let the input queue hold the items [before], then an item [value]
    that fails in one of the five ways, then the items [after].  The try
    block throws on [value], and the loop body on it leaves the output
    queue alone and appends one line to [cerr], which names [value].  The
    worker, run to the end of the queue, ends in this world: every item has
    been popped, in order; the output queue has received the records of
    the items of [before] and [after] that succeed, and nothing for
    [value]; [cerr] has received the diagnostics of [before], then the one
    line for [value], then the diagnostics of [after], so the items after
    the failure have been processed; and the worker has returned if the
    queue is closed and waits in [pop] if it is open. *)
Theorem failed_item_is_reported_and_skipped
        (tid : nat) (w : world) (before : list string) (value : string)
        (after : list string) (d : bool) (log : list record) (e : exception) :
  tsq_in w = ({| queue := before ++ value :: after; done := d |}, log) ->
  failure env c value e ->
  let recs := records env c before ++ records env c after in
  classify env c value = Throw e /\
  (forall w0, classify_body env c tid value w0
              = set_cerr (cerr w0 ++ [diagnostic value e]) w0) /\
  mentions value (diagnostic value e) /\
  thread_classify env c (S (length (before ++ value :: after))) tid w
  = ending d
      (mk_world
         ({| queue := []; done := d |},
          log ++ pops tid (before ++ value :: after) ++ [last_pop d tid])
         (push_all recs (fst (tsq_out w)),
          snd (tsq_out w) ++ map (RPushed tid) recs)
         (cin w) (cout w)
         (cerr w ++ diagnostics env c before ++ [diagnostic value e]
            ++ diagnostics env c after)).
Proof.
  intros Hq Hf. cbn zeta.
  pose proof (failure_classify _ _ Hf) as Hc.
  split; [exact Hc|]. split.
  { intro w0. unfold classify_body. rewrite Hc. reflexivity. }
  split; [apply diagnostic_mentions|].
  rewrite (thread_classify_whole tid _ w d log Hq).
  rewrite records_app, diagnostics_app. cbn [records diagnostics]. rewrite Hc.
  destruct (tsq_out w) as [q l]. rewrite pushed_run_pushes. reflexivity.
Qed.

End ThreadFacts.

(* ------------------------------------------------------------------ *)
(** ** The orchestration *)

Section PipelineFacts.
Import TSQueue Yolo Utils Main.

Variables image score : Type.
Variable env : environment image score.
Variable config : configuration.
Variable isatty : bool.

Hypothesis threads_unsigned : is_unsigned (threads config).

Lemma update_length {A : Type} (x : A) : forall l i, length (update i x l) = length l.
Proof.
  induction l as [|y l IH]; intros [|i]; cbn [update length]; try reflexivity.
  now rewrite IH.
Qed.

Lemma firstn_update_ge {A : Type} (x : A) : forall l i k,
  (k <= i)%nat -> firstn k (update i x l) = firstn k l.
Proof.
  induction l as [|y l IH]; intros [|i] [|k] Hk; cbn [update firstn];
    try reflexivity; try lia.
  rewrite IH by lia. reflexivity.
Qed.

Lemma all_returned_firstn_le : forall l k i p,
  all_returned (firstn k l) -> nth_error l i = Some p -> p <> WReturned -> (k <= i)%nat.
Proof.
  induction l as [|y l IH]; intros k i p Ha Hn Hp.
  - destruct i; discriminate Hn.
  - destruct k as [|k]; [lia|]. cbn [firstn] in Ha. inversion Ha; subst.
    destruct i as [|i]; cbn [nth_error] in Hn.
    + inversion Hn; subst. contradiction.
    + apply le_n_S. eapply IH; eassumption.
Qed.

Lemma firstn_succ_nth {A : Type} : forall (l : list A) k x,
  nth_error l k = Some x -> firstn (S k) l = firstn k l ++ [x].
Proof.
  induction l as [|y l IH]; intros [|k] x H; cbn [nth_error] in H; try discriminate.
  - inversion H; subst. reflexivity.
  - cbn [firstn app]. f_equal. change (firstn (S k) l = firstn k l ++ [x]).
    apply IH, H.
Qed.

Lemma exec_push_done t v st : done (fst (exec (CPush t v) st)) = done (fst st).
Proof. destruct st as [q log]. reflexivity. Qed.

Lemma exec_pop_done t st : done (fst (exec (CPop t) st)) = done (fst st).
Proof.
  destruct st as [[items d] log]. cbn [exec]. unfold pop, wait_predicate.
  cbn [queue done]. destruct items as [|v rest]; [destruct d|]; reflexivity.
Qed.

Lemma classify_body_out_done t value w :
  done (fst (tsq_out (classify_body env config t value w))) = done (fst (tsq_out w)).
Proof.
  unfold classify_body. destruct (classify env config value); cbn [tsq_out set_tsq_out set_cerr].
  - apply exec_push_done.
  - reflexivity.
Qed.

Lemma get_line_body_out t line w :
  tsq_out (get_line_body env config t line w) = tsq_out w.
Proof.
  unfold get_line_body.
  destruct (negb (disable_extension_check config));
    [destruct (is_supported_image _)|]; reflexivity.
Qed.

(** A step that leaves [main] where it is, keeps the closed flag of the
    output queue and only moves workers that had not returned keeps the
    invariant. *)
Lemma invariant_frame s s' :
  invariant config s ->
  main s' = main s ->
  out_done s' = out_done s ->
  length (worker_threads s') = length (worker_threads s) ->
  (forall k, all_returned (firstn k (worker_threads s)) ->
             all_returned (firstn k (worker_threads s'))) ->
  invariant config s'.
Proof.
  unfold invariant. intros (Hd & Hs & Ha) Hm Ho Hl Hf.
  rewrite Hm, Ho, Hl. auto.
Qed.

Lemma worker_update_returned s i p x :
  nth_error (worker_threads s) i = Some p -> p <> WReturned ->
  forall k, all_returned (firstn k (worker_threads s)) ->
            all_returned (firstn k (update i x (worker_threads s))).
Proof.
  intros Hn Hp k Ha.
  rewrite firstn_update_ge; [exact Ha|].
  eapply all_returned_firstn_le; eassumption.
Qed.

Lemma worker_step_invariant i s s' :
  invariant config s -> worker_step env config i s = Some s' -> invariant config s'.
Proof.
  intros Hinv H. unfold worker_step in H.
  destruct (nth_error (worker_threads s) i) as [[|value|]|] eqn:Hn; try discriminate.
  - destruct (pop (fst (tsq_in (shared s)))) as [|[v|] q']; try discriminate;
      inversion H; subst; clear H;
      (apply (invariant_frame s); [exact Hinv|reflexivity|reflexivity
                                   |apply update_length
                                   |eapply worker_update_returned; [exact Hn|discriminate]]).
  - inversion H; subst; clear H.
    apply (invariant_frame s); [exact Hinv|reflexivity| |apply update_length
                                |eapply worker_update_returned; [exact Hn|discriminate]].
    unfold out_done. cbn [shared set_worker_threads set_shared].
    apply classify_body_out_done.
Qed.

Lemma output_step_invariant s s' :
  invariant config s -> output_step s = Some s' -> invariant config s'.
Proof.
  intros Hinv H. unfold output_step in H.
  destruct (output_thread s) as [[|value|]|]; try discriminate.
  - destruct (pop (fst (tsq_out (shared s)))) as [|[v|] q']; try discriminate;
      inversion H; subst; clear H;
      (apply (invariant_frame s); [exact Hinv|reflexivity| |reflexivity|auto]);
      unfold out_done; cbn [shared set_output_thread set_shared tsq_out set_tsq_out];
      apply exec_pop_done.
  - inversion H; subst; clear H.
    apply (invariant_frame s); [exact Hinv|reflexivity|reflexivity|reflexivity|auto].
Qed.

Lemma input_step_invariant s s' :
  invariant config s -> input_step env config s = Some s' -> invariant config s'.
Proof.
  intros Hinv H. unfold input_step in H.
  destruct (input_thread s) as [[| |]|]; try discriminate.
  - destruct (cin (shared s)) as [|line rest]; inversion H; subst; clear H.
    + apply (invariant_frame s); [exact Hinv|reflexivity|reflexivity|reflexivity|auto].
    + apply (invariant_frame s); [exact Hinv|reflexivity| |reflexivity|auto].
      unfold out_done. cbn [shared set_shared]. now rewrite get_line_body_out.
  - inversion H; subst; clear H.
    apply (invariant_frame s); [exact Hinv|reflexivity|reflexivity|reflexivity|auto].
Qed.

Lemma to_unsigned_small i : (0 <= i < 2 ^ 32)%Z -> to_unsigned i = i.
Proof. intro H. unfold to_unsigned. apply Z.mod_small. exact H. Qed.

Lemma main_step_invariant s s' :
  invariant config s -> main_step config isatty s = Some s' -> invariant config s'.
Proof.
  unfold invariant, out_done, main_step. intros (Hd & Hs & Ha) H.
  unfold is_unsigned in threads_unsigned.
  destruct (main s) as [|i| |files| | | |k| | |] eqn:Hpc;
    cbn [closed_at spawned joined] in *.
  - inversion H; subst; clear H. cbn. rewrite Hs. cbn.
    repeat split; try lia; try assumption; try constructor.
  - destruct Hs as (Hi & Hlen). rewrite to_unsigned_small in H by lia.
    destruct (Z.ltb_spec i (threads config)); inversion H; subst; clear H;
      cbn [main shared worker_threads set_main set_worker_threads closed_at spawned joined firstn].
    + rewrite length_app. cbn [length].
      repeat split; try lia; try assumption; try constructor.
    + repeat split; try lia; try assumption.
  - destruct isatty; inversion H; subst; clear H; cbn; auto.
  - destruct files as [|f rest]; inversion H; subst; clear H;
      cbn [main shared worker_threads set_main set_shared set_tsq_in tsq_out
           closed_at spawned joined firstn]; auto.
  - inversion H; subst; clear H.
    cbn [main shared worker_threads set_main set_shared set_tsq_in tsq_out
         closed_at spawned joined firstn]. auto.
  - inversion H; subst; clear H. cbn; auto.
  - destruct (input_thread s) as [[| |]|]; inversion H; subst; clear H. cbn; auto.
  - destruct (nth_error (worker_threads s) k) as [[|value|]|] eqn:Hn;
      inversion H; subst; clear H;
      cbn [main shared worker_threads set_main closed_at spawned joined].
    + repeat split; try assumption.
      rewrite (firstn_succ_nth _ _ _ Hn). apply Forall_app. split; [exact Ha|].
      constructor; [reflexivity|constructor].
    + repeat split; try assumption.
      apply nth_error_None in Hn. rewrite firstn_all.
      rewrite firstn_all2 in Ha by exact Hn. exact Ha.
  - inversion H; subst; clear H.
    cbn [main shared worker_threads set_main set_shared set_tsq_out tsq_out
         closed_at spawned joined exec fst close done].
    destruct (tsq_out (shared s)) as [q log]. cbn. auto.
  - destruct (output_thread s) as [[| |]|]; inversion H; subst; clear H. cbn; auto.
  - discriminate.
Qed.

Lemma step_invariant who s s' :
  invariant config s -> step env config isatty who s = Some s' -> invariant config s'.
Proof.
  destruct who as [| |i|]; cbn [step].
  - apply main_step_invariant.
  - apply output_step_invariant.
  - apply worker_step_invariant.
  - apply input_step_invariant.
Qed.

Lemma initial_invariant stdin : invariant config (initial stdin).
Proof. unfold invariant. cbn. repeat split. constructor. Qed.

Lemma run_system_invariant sched : forall s,
  invariant config s -> invariant config (run_system env config isatty sched s).
Proof.
  induction sched as [|who sched IH]; intros s H; [exact H|].
  cbn [run_system fold_left]. apply IH. unfold turn.
  destruct (step env config isatty who s) as [s'|] eqn:E; [|exact H].
  eapply step_invariant; eassumption.
Qed.

(** C9: in every state the pipeline can reach, under any schedule of its
    threads and on any input, if the output queue is closed then [main]
    has spawned its [config.threads] workers and every one of them has
    returned from [thread_classify], so none is about to pop or holds a
    value it has yet to push; [main] waits in the join of the output
    thread, or is past it, only with the output queue closed; and a worker
    that holds a value it has yet to process finds the output queue open. *)
Theorem output_closed_only_after_workers_joined
        (stdin : list string) (sched : list thread) :
  let s := run_system env config isatty sched (initial stdin) in
  (out_done s = true ->
   Z.of_nat (length (worker_threads s)) = threads config /\
   all_returned (worker_threads s) /\
   (main s = AtJoinOutput \/ main s = AtReturn)) /\
  (main s = AtJoinOutput \/ main s = AtReturn -> out_done s = true) /\
  (forall i value, nth_error (worker_threads s) i = Some (WBody value) ->
                   out_done s = false).
Proof.
  cbn zeta.
  destruct (run_system_invariant sched _ (initial_invariant stdin)) as (Hd & Hs & Ha).
  set (s := run_system env config isatty sched (initial stdin)) in *.
  assert (Hclosed : out_done s = true ->
            Z.of_nat (length (worker_threads s)) = threads config /\
            all_returned (worker_threads s) /\
            (main s = AtJoinOutput \/ main s = AtReturn)).
  { intro Ho. rewrite Ho in Hd.
    destruct (main s); cbn [closed_at spawned joined] in *; try discriminate;
      rewrite firstn_all in Ha; auto. }
  split; [exact Hclosed|]. split.
  - intros [Hm|Hm]; rewrite Hd, Hm; reflexivity.
  - intros i value Hn. destruct (out_done s) eqn:Ho; [|reflexivity].
    destruct (Hclosed eq_refl) as (_ & Hall & _).
    unfold all_returned in Hall. rewrite Forall_forall in Hall.
    apply nth_error_In in Hn. apply Hall in Hn. discriminate.
Qed.

End PipelineFacts.

(* ------------------------------------------------------------------ *)
(** ** The pipeline on the test bench *)

Section BenchFacts.
Import TSQueue Yolo Utils Main Bench.

Lemma failed_item_is_reported_and_skipped_witness :
  let w := mk_world
             ({| queue := ["a.png"; "missing.png"; "a.png"]%string; done := true |}, [])
             (fresh, []) [] [] [] in
  let e := filesystem_error "Path is not a regular file or does not exist"
             "missing.png" no_such_file_or_directory in
  failure bench_env bench_config "missing.png" e /\
  thread_classify bench_env bench_config 4 3 w
  = Finished
      (mk_world
         ({| queue := []; done := true |},
          [RPopped 3 (Some "a.png"%string); RPopped 3 (Some "missing.png"%string);
           RPopped 3 (Some "a.png"%string); RPopped 3 None])
         ({| queue := ["a.png, cat 900"; "a.png, cat 900"]%string; done := false |},
          [RPushed 3 "a.png, cat 900"%string; RPushed 3 "a.png, cat 900"%string])
         [] [] [diagnostic "missing.png" e]).
Proof.
  cbn zeta.
  assert (Hf : failure bench_env bench_config "missing.png"
                 (filesystem_error "Path is not a regular file or does not exist"
                    "missing.png" no_such_file_or_directory))
    by (apply not_regular; reflexivity).
  split; [exact Hf|].
  destruct (failed_item_is_reported_and_skipped string Z bench_env bench_config 3
              (mk_world
                 ({| queue := ["a.png"; "missing.png"; "a.png"]%string; done := true |}, [])
                 (fresh, []) [] [] [])
              ["a.png"%string] "missing.png" ["a.png"%string] true [] _ eq_refl Hf)
    as (_ & _ & _ & Hrun).
  exact Hrun.
Defined.

(** Scenario A of the worker: [a.png] is classified, the classifier throws
    on [b.png]; one record reaches the output queue and one line the error
    stream. *)
Example worker_scenario :
  thread_classify bench_env bench_config 3 3
    (mk_world ({| queue := ["a.png"; "b.png"]%string; done := true |}, [])
       (fresh, []) [] [] [])
  = Finished
      (mk_world
         ({| queue := []; done := true |},
          [RPopped 3 (Some "a.png"%string); RPopped 3 (Some "b.png"%string);
           RPopped 3 None])
         ({| queue := ["a.png, cat 900"%string]; done := false |},
          [RPushed 3 "a.png, cat 900"%string])
         [] []
         [diagnostic "b.png" (other_exception "inference failed")]).
Proof. reflexivity. Qed.

(** The streaming producer on four lines, and on none. *)
Example producer_scenario :
  tsq_in (thread_get_line bench_env bench_config 2
            (mk_world (fresh, []) (fresh, [])
               ["a.png"; "notes.txt"; "B.JPG"; "dir/"]%string [] []))
  = ({| queue := ["a.png"; "B.JPG"]%string; done := true |},
     [RPushed 2 "a.png"%string; RPushed 2 "B.JPG"%string; RClosed 2]) /\
  tsq_in (thread_get_line bench_env bench_config 2
            (mk_world (fresh, []) (fresh, []) [] [] []))
  = ({| queue := []; done := true |}, [RClosed 2]).
Proof. split; reflexivity. Qed.

Lemma output_closed_only_after_workers_joined_witness :
  let s := run_system bench_env bench_config true bench_schedule (initial []) in
  is_unsigned (threads bench_config) /\
  out_done s = true /\
  main s = AtReturn /\
  worker_threads s = [WReturned; WReturned] /\
  Z.of_nat (length (worker_threads s)) = threads bench_config /\
  all_returned (worker_threads s).
Proof.
  cbn zeta.
  assert (Hu : is_unsigned (threads bench_config)) by (unfold is_unsigned; cbn; lia).
  split; [exact Hu|]. split; [reflexivity|]. split; [reflexivity|].
  split; [reflexivity|].
  destruct (output_closed_only_after_workers_joined string Z bench_env bench_config
              true Hu [] bench_schedule) as (Hclosed & _).
  destruct (Hclosed eq_refl) as (Hn & Hall & _).
  split; [exact Hn | exact Hall].
Defined.

End BenchFacts.

(* ------------------------------------------------------------------ *)
(** ** More on the queue *)

Section QueueMore.
Import TSQueue.

Lemma exec_closed_stays c st :
  done (fst st) = true ->
  done (fst (exec c st)) = true /\ parked (snd (exec c st)) = parked (snd st).
Proof.
  destruct st as [[items d] log]. cbn [fst snd done]. intro Hd. subst d.
  destruct c as [t v|t|t]; cbn [exec].
  - cbn [fst snd push done]. rewrite parked_app. cbn. split; [reflexivity|lia].
  - destruct items as [|x rest].
    + rewrite pop_closed_empty. cbn [fst snd done]. rewrite parked_app. cbn.
      split; [reflexivity|lia].
    + rewrite pop_cons. cbn [fst snd done]. rewrite parked_app. cbn.
      split; [reflexivity|lia].
  - cbn [fst snd close done]. rewrite parked_app. cbn. split; [reflexivity|lia].
Qed.

(** X2: Closing cannot be undone: once the flag is set, no sequence of calls
    by any threads clears it, and none of the pops among them stays
    parked. *)
Theorem close_is_irreversible (sched : list call) (st : tsqueue * list record) :
  done (fst st) = true ->
  done (fst (run sched st)) = true /\
  parked (snd (run sched st)) = parked (snd st).
Proof.
  revert st. induction sched as [|c sched IH]; intros st Hd; [auto|].
  rewrite run_cons. destruct (exec_closed_stays c st Hd) as (Hd' & Hp').
  destruct (IH _ Hd') as (H1 & H2). split; [exact H1|]. now rewrite H2.
Qed.

Lemma close_is_irreversible_witness :
  let st := (close (push "a.png"%string fresh), [RParked 7]) in
  let sched := [CPop 1; CPush 0 "b.png"%string; CPop 2; CPop 1; CPop 2] in
  done (fst st) = true /\
  done (fst (run sched st)) = true /\
  parked (snd (run sched st)) = 1.
Proof.
  cbn zeta. split; [reflexivity|].
  apply (close_is_irreversible
           [CPop 1; CPush 0 "b.png"%string; CPop 2; CPop 1; CPop 2]
           (close (push "a.png"%string fresh), [RParked 7])).
  reflexivity.
Defined.

End QueueMore.

(* ------------------------------------------------------------------ *)
(** ** More on the top-k loop *)

Section LabelFacts.
Import Yolo Labels.
Local Open Scope Z_scope.

Variable score : Type.

Lemma to_size_t_nonneg i : 0 <= to_size_t i.
Proof. unfold to_size_t. apply Z.mod_pos_bound. lia. Qed.

(** One turn of the loop on an entry that does not hit the end. *)
Lemma top_k_loop_step (class_names : list string) (e : Z * score)
      (rest : list (Z * score)) (acc : list (prediction score)) :
  ~ hits_end class_names e ->
  top_k_loop class_names (e :: rest) acc
  = top_k_loop class_names rest (acc ++ [labelled class_names e]).
Proof.
  destruct e as [class_index conf]. unfold hits_end, labelled, label. cbn [fst snd].
  intro Hne. cbn [top_k_loop]. unfold bound_check, subscript.
  pose proof (to_size_t_nonneg class_index) as Hnn.
  destruct (Z.leb_spec (to_size_t class_index) (Z.of_nat (length class_names))) as [Hle|Hgt].
  - destruct (Z.ltb_spec (to_size_t class_index) (Z.of_nat (length class_names))) as [Hlt|Hge];
      [|lia].
    assert (Hn : (Z.to_nat (to_size_t class_index) < length class_names)%nat) by lia.
    destruct (nth_error class_names (Z.to_nat (to_size_t class_index))) as [name|] eqn:E.
    + rewrite (nth_error_nth _ _ EmptyString E). reflexivity.
    + apply nth_error_None in E. lia.
  - destruct (Z.ltb_spec (to_size_t class_index) (Z.of_nat (length class_names))) as [Hlt|Hge];
      [lia|reflexivity].
Qed.

(** One turn of the loop on an entry that hits the end. *)
Lemma top_k_loop_hit (class_names : list string) (e : Z * score)
      (rest : list (Z * score)) (acc : list (prediction score)) :
  hits_end class_names e ->
  top_k_loop class_names (e :: rest) acc
  = PastTheEnd (Z.of_nat (length class_names)) (Z.of_nat (length class_names)).
Proof.
  destruct e as [class_index conf]. unfold hits_end. cbn [fst].
  intro He. cbn [top_k_loop]. unfold bound_check, subscript. rewrite He.
  rewrite Z.leb_refl, Nat2Z.id.
  assert (E : nth_error class_names (length class_names) = None)
    by (apply nth_error_None; lia).
  rewrite E. reflexivity.
Qed.

Lemma top_k_loop_labels (class_names : list string) (entries : list (Z * score)) :
  forall acc,
    Forall (fun e => ~ hits_end class_names e) entries ->
    top_k_loop class_names entries acc
    = Value (acc ++ map (labelled class_names) entries).
Proof.
  induction entries as [|e rest IH]; intros acc Hall.
  - cbn. now rewrite app_nil_r.
  - inversion Hall; subst. rewrite top_k_loop_step by assumption.
    rewrite IH by assumption. cbn [map]. now rewrite <- app_assoc.
Qed.

Lemma hits_end_dec (class_names : list string) (e : Z * score) :
  {hits_end class_names e} + {~ hits_end class_names e}.
Proof. unfold hits_end. apply Z.eq_dec. Qed.

Lemma top_k_loop_past (class_names : list string) (entries : list (Z * score)) :
  forall acc,
    Exists (hits_end class_names) entries ->
    top_k_loop class_names entries acc
    = PastTheEnd (Z.of_nat (length class_names)) (Z.of_nat (length class_names)).
Proof.
  induction entries as [|e rest IH]; intros acc Hex.
  - inversion Hex.
  - destruct (hits_end_dec class_names e) as [Hh|Hn].
    + apply top_k_loop_hit, Hh.
    + rewrite top_k_loop_step by exact Hn. apply IH.
      inversion Hex; subst; [contradiction|assumption].
Qed.

(** X3: When none of the entries the loop visits has the index
    [class_names.size()], the loop returns one prediction per visited
    entry, in order: the name from the list for an index below the size,
    [class_<index>] for an index above it, each with its confidence. *)
Theorem top_predictions_labels (class_names : list string) (top_k : Z)
        (indexed_scores : list (Z * score)) :
  Forall (fun e => ~ hits_end class_names e) (visited top_k indexed_scores) ->
  top_predictions class_names top_k indexed_scores
  = Value (map (labelled class_names) (visited top_k indexed_scores)) /\
  (0 <= top_k ->
   Z.of_nat (length (visited top_k indexed_scores))
   = Z.min top_k (Z.of_nat (length indexed_scores))).
Proof.
  intro H. split.
  - unfold top_predictions. apply (top_k_loop_labels _ _ [] H).
  - intro Hk. unfold visited. rewrite length_firstn. lia.
Qed.

(** X4: The loop runs past the end of the name list exactly when one of the
    entries it visits has the index [class_names.size()]; the subscript it
    then performs is at that index. *)
Theorem top_predictions_past_the_end_iff (class_names : list string) (top_k : Z)
        (indexed_scores : list (Z * score)) :
  ((exists i n, top_predictions class_names top_k indexed_scores = PastTheEnd i n) <->
   Exists (hits_end class_names) (visited top_k indexed_scores)) /\
  (forall i n, top_predictions class_names top_k indexed_scores = PastTheEnd i n ->
               i = Z.of_nat (length class_names) /\ n = Z.of_nat (length class_names)).
Proof.
  assert (Hdec : Exists (hits_end class_names) (visited top_k indexed_scores) \/
                 Forall (fun e => ~ hits_end class_names e) (visited top_k indexed_scores)).
  { destruct (Exists_dec (hits_end class_names) (visited top_k indexed_scores)
                (hits_end_dec class_names)) as [He|Hn]; [left; exact He|right].
    apply Forall_Exists_neg. exact Hn. }
  unfold top_predictions. fold (visited top_k indexed_scores).
  destruct Hdec as [He|Hf].
  - rewrite (top_k_loop_past _ _ [] He). split.
    + split; [intros _; exact He|intros _; eauto].
    + intros i n H. inversion H. auto.
  - rewrite (top_k_loop_labels _ _ [] Hf). split.
    + split; [intros (i & n & H); discriminate|].
      intro He. exfalso. rewrite Forall_forall in Hf. apply Exists_exists in He.
      destruct He as (e & Hin & Hh). exact (Hf e Hin Hh).
    + intros i n H. discriminate.
Qed.

Lemma in_firstn {A : Type} (x : A) : forall n l, In x (firstn n l) -> In x l.
Proof.
  induction n as [|n IH]; intros [|y l] H; cbn [firstn] in H; try contradiction.
  destruct H as [H|H]; [left; exact H|right; apply IH, H].
Qed.

Lemma index_scores_in (scores : list score) (e : Z * score) :
  In e (index_scores scores) ->
  exists i, (i < length scores)%nat /\ fst e = Z.of_nat i.
Proof.
  unfold index_scores. destruct e as [idx conf]. intro H.
  apply in_combine_l in H. apply in_map_iff in H. destruct H as (i & Hi & Hin).
  apply in_seq in Hin. exists i. cbn [fst]. split; [lia|now symmetry].
Qed.

(** X5: With at least as many class names as the model has outputs, the loop
    never leaves the name list, whatever order the sort has put the
    entries in: it returns, for each visited entry, the name at its index
    and its confidence. *)
Theorem top_predictions_safe_with_enough_names
        (class_names : list string) (top_k : Z) (scores : list score)
        (sorted : list (Z * score)) :
  Permutation sorted (index_scores scores) ->
  (length scores <= length class_names)%nat ->
  Z.of_nat (length class_names) < 2 ^ 64 ->
  top_predictions class_names top_k sorted
  = Value (map (fun e => mk_prediction
                           (nth (Z.to_nat (fst e)) class_names EmptyString) (snd e))
             (visited top_k sorted)).
Proof.
  intros Hperm Hlen Hsz.
  assert (Hin : forall e, In e (visited top_k sorted) ->
                  exists i, (i < length scores)%nat /\ fst e = Z.of_nat i).
  { intros e He. apply index_scores_in. eapply Permutation_in; [exact Hperm|].
    unfold visited in He. eapply in_firstn. exact He. }
  assert (Hsmall : forall e, In e (visited top_k sorted) ->
                     to_size_t (fst e) = fst e /\ fst e < Z.of_nat (length class_names)).
  { intros e He. destruct (Hin e He) as (i & Hi & Hf). rewrite Hf.
    rewrite to_size_t_of_nat by lia. lia. }
  destruct (top_predictions_labels class_names top_k sorted) as (Hv & _).
  { apply Forall_forall. intros e He. unfold hits_end.
    destruct (Hsmall e He). lia. }
  rewrite Hv. f_equal. apply map_ext_in. intros e He.
  destruct (Hsmall e He) as (Hs & Hlt).
  unfold labelled, label. rewrite Hs.
  destruct (Z.ltb_spec (fst e) (Z.of_nat (length class_names))); [reflexivity|lia].
Qed.

End LabelFacts.

Section LabelWitnesses.
Import Yolo Labels.
Local Open Scope Z_scope.

Lemma top_predictions_labels_witness :
  top_predictions ["cat"%string] 2 [(0, 90); (5, 7); (1, 3)]
  = Value [mk_prediction "cat"%string 90; mk_prediction "class_5"%string 7].
Proof.
  apply (top_predictions_labels Z ["cat"%string] 2 [(0, 90); (5, 7); (1, 3)]).
  repeat constructor; unfold hits_end; cbn; discriminate.
Defined.

Lemma top_predictions_safe_with_enough_names_witness :
  top_predictions ["cat"%string; "dog"%string; "fox"%string] 2 [(1, 90); (0, 7)]
  = Value [mk_prediction "dog"%string 90; mk_prediction "cat"%string 7].
Proof.
  apply (top_predictions_safe_with_enough_names Z
           ["cat"%string; "dog"%string; "fox"%string] 2 [7; 90] [(1, 90); (0, 7)]).
  - apply perm_swap.
  - cbn; lia.
  - cbn; lia.
Defined.

End LabelWitnesses.

(* ------------------------------------------------------------------ *)
(** ** Sizes with units *)

Section UnitFacts.
Import Utils Text.
Local Open Scope Z_scope.

(** *** Characters *)

Lemma tolower_classes (c : ascii) :
  isspace (tolower c) = isspace c /\
  isdigit (tolower c) = isdigit c /\
  Ascii.eqb (tolower c) "." = Ascii.eqb c "." /\
  tolower (tolower c) = tolower c /\
  (isdigit c = true -> tolower c = c /\ isspace c = false).
Proof.
  destruct c as [[] [] [] [] [] [] [] []]; vm_compute;
    repeat split; try reflexivity; try congruence.
Qed.

Lemma isdigit_value (c : ascii) :
  isdigit c = true -> 0 <= Z.of_nat (nat_of_ascii c) - 48 <= 9.
Proof.
  unfold isdigit. intro H. apply andb_prop in H. destruct H as [H1 H2].
  apply Nat.leb_le in H1. apply Nat.leb_le in H2. lia.
Qed.

(** *** Strings *)

Lemma append_assoc (a b d : string) : (a +++ b) +++ d = a +++ b +++ d.
Proof. induction a as [|x a IH]; cbn; [reflexivity|now rewrite IH]. Qed.

Lemma append_empty_r (a : string) : a +++ EmptyString = a.
Proof. induction a as [|x a IH]; cbn; [reflexivity|now rewrite IH]. Qed.

Lemma lowercase_append (a b : string) : lowercase (a +++ b) = lowercase a +++ lowercase b.
Proof. induction a as [|x a IH]; cbn; [reflexivity|now rewrite IH]. Qed.

Lemma lowercase_idempotent (s : string) : lowercase (lowercase s) = lowercase s.
Proof.
  induction s as [|c s IH]; cbn; [reflexivity|].
  rewrite IH. now destruct (tolower_classes c) as (_ & _ & _ & -> & _).
Qed.

Lemma lowercase_digits (ds : string) : all_digits ds = true -> lowercase ds = ds.
Proof.
  induction ds as [|c ds IH]; cbn; [reflexivity|]. intro H.
  apply andb_prop in H. destruct H as [Hc Hr].
  destruct (tolower_classes c) as (_ & _ & _ & _ & Hd).
  destruct (Hd Hc) as [-> _]. now rewrite IH.
Qed.

Lemma spaceless_lowercase (s : string) : spaceless (lowercase s) = spaceless s.
Proof.
  induction s as [|c s IH]; cbn; [reflexivity|].
  rewrite IH. now destruct (tolower_classes c) as (-> & _).
Qed.

Lemma no_leading_digit_lowercase (s : string) :
  no_leading_digit (lowercase s) = no_leading_digit s.
Proof.
  destruct s as [|c s]; cbn; [reflexivity|].
  now destruct (tolower_classes c) as (_ & -> & _).
Qed.

Lemma spaceless_digits (ds : string) : all_digits ds = true -> spaceless ds = true.
Proof.
  induction ds as [|c ds IH]; cbn; [reflexivity|]. intro H.
  apply andb_prop in H. destruct H as [Hc Hr].
  destruct (tolower_classes c) as (_ & _ & _ & _ & Hd).
  destruct (Hd Hc) as [_ ->]. cbn. apply IH, Hr.
Qed.

Lemma spaceless_append (a b : string) :
  spaceless (a +++ b) = spaceless a && spaceless b.
Proof.
  induction a as [|x a IH]; cbn; [reflexivity|]. rewrite IH. apply andb_assoc.
Qed.

Lemma erase_leading_space_spaceless (s : string) :
  spaceless s = true -> erase_leading_space s = s.
Proof.
  destruct s as [|c s]; cbn; [reflexivity|]. intro H.
  apply andb_prop in H. destruct H as [Hc _].
  apply negb_true_iff in Hc. now rewrite Hc.
Qed.

Lemma erase_trailing_space_spaceless (s : string) :
  spaceless s = true -> erase_trailing_space s = s.
Proof.
  induction s as [|c s IH]; cbn; [reflexivity|]. intro H.
  apply andb_prop in H. destruct H as [Hc Hr].
  apply negb_true_iff in Hc. rewrite (IH Hr), Hc. now destruct s.
Qed.

Lemma erase_leading_space_blank (ws s : string) :
  blank ws = true -> erase_leading_space (ws +++ s) = erase_leading_space s.
Proof.
  induction ws as [|c ws IH]; cbn; [reflexivity|]. intro H.
  apply andb_prop in H. destruct H as [Hc Hr]. rewrite Hc. apply IH, Hr.
Qed.

Lemma leading_digits_append (ds u : string) :
  all_digits ds = true -> no_leading_digit u = true ->
  leading_digits (ds +++ u) = ds /\ after_digits (ds +++ u) = u.
Proof.
  intros Hd Hu. induction ds as [|c ds IH]; cbn.
  - destruct u as [|x u]; cbn; [auto|].
    cbn in Hu. apply negb_true_iff in Hu. rewrite Hu. auto.
  - cbn in Hd. apply andb_prop in Hd. destruct Hd as [Hc Hr].
    rewrite Hc. destruct (IH Hr) as [-> ->]. auto.
Qed.

Lemma leading_digits_all (s : string) : all_digits (leading_digits s) = true.
Proof.
  induction s as [|c s IH]; cbn; [reflexivity|].
  destruct (isdigit c) eqn:E; cbn; [now rewrite E|reflexivity].
Qed.

Lemma digits_value_nonneg (ds : string) :
  all_digits ds = true -> forall acc, 0 <= acc -> 0 <= digits_value ds acc.
Proof.
  induction ds as [|c ds IH]; cbn [digits_value all_digits]; intros H acc Hacc;
    [exact Hacc|].
  apply andb_prop in H. destruct H as [Hc Hr].
  apply IH; [exact Hr|]. pose proof (isdigit_value c Hc). lia.
Qed.

(** *** stoull *)

Lemma leading_digits_id (ds : string) : all_digits ds = true -> leading_digits ds = ds.
Proof.
  intro H. destruct (leading_digits_append ds EmptyString H eq_refl) as [Hl _].
  now rewrite append_empty_r in Hl.
Qed.

Lemma scan_integer_digits (c : ascii) (r : string) :
  all_digits (String c r) = true -> scan_integer (String c r) = (false, String c r).
Proof.
  intro H. pose proof (leading_digits_id _ H) as Hl.
  cbn [all_digits] in H. apply andb_prop in H. destruct H as [Hc Hr].
  destruct c as [[] [] [] [] [] [] [] []]; try discriminate Hc;
    unfold scan_integer; cbn [erase_leading_space];
    match goal with
    | |- context [isspace ?x] => change (isspace x) with false
    end; cbv iota; rewrite Hl; reflexivity.
Qed.

Lemma stoull_digits (ds : string) :
  all_digits ds = true -> ds <> EmptyString ->
  stoull ds = if 2 ^ 64 - 1 <? digits_value ds 0
              then Throw (out_of_range "stoull") else Ok (digits_value ds 0).
Proof.
  intros Hd Hne. destruct ds as [|c r]; [contradiction|].
  unfold stoull. rewrite (scan_integer_digits _ _ Hd). reflexivity.
Qed.

Lemma Ok_inj {A : Type} (a b : A) : Ok a = Ok b -> a = b.
Proof. intro H. now injection H. Qed.

Lemma scan_integer_shape (str : string) :
  exists negative s, scan_integer str = (negative, leading_digits s).
Proof.
  unfold scan_integer. destruct (erase_leading_space str) as [|c r].
  - exists false, EmptyString. reflexivity.
  - destruct c as [[] [] [] [] [] [] [] []]; do 2 eexists; reflexivity.
Qed.

Lemma stoull_range (str : string) (v : Z) : stoull str = Ok v -> 0 <= v <= 2 ^ 64 - 1.
Proof.
  unfold stoull. destruct (scan_integer_shape str) as (negative & s & ->).
  pose proof (digits_value_nonneg _ (leading_digits_all s) 0 (Z.le_refl 0)) as Hnn.
  destruct (is_empty (leading_digits s)); [discriminate|].
  destruct (Z.ltb_spec (2 ^ 64 - 1) (digits_value (leading_digits s) 0)) as [Hgt|Hle];
    [discriminate|].
  intro Hv. apply Ok_inj in Hv. subst v. destruct negative; [|lia].
  assert (Hm : 0 < 2 ^ 64) by lia.
  generalize (Z.mod_pos_bound (2 ^ 64 - digits_value (leading_digits s) 0) (2 ^ 64) Hm).
  generalize ((2 ^ 64 - digits_value (leading_digits s) 0) mod 2 ^ 64).
  intros z Hz. lia.
Qed.

(** *** The table of units *)

Lemma find_multipliers (k : string) (m : Z) :
  find k multipliers = Some m ->
  spaceless k = true /\ no_leading_digit k = true /\ k <> EmptyString /\
  1 <= m <= 2 ^ 40.
Proof.
  unfold multipliers. cbn [find].
  repeat match goal with
         | |- context [String.eqb ?a k] =>
             destruct (String.eqb_spec a k) as [<-|_];
             [intro H; inversion H; subst; vm_compute;
              repeat split; try discriminate; reflexivity|]
         end.
  discriminate.
Qed.

(** *** string_unit_to_numeric *)

Lemma erase_leading_space_head (c : ascii) (r : string) :
  isspace c = false -> erase_leading_space (String c r) = String c r.
Proof. intro H. cbn. now rewrite H. Qed.

Lemma erase_trailing_space_blank (ws : string) :
  blank ws = true -> erase_trailing_space ws = EmptyString.
Proof.
  induction ws as [|c ws IH]; cbn; [reflexivity|]. intro H.
  apply andb_prop in H. destruct H as [Hc Hr]. now rewrite (IH Hr), Hc.
Qed.

Lemma erase_trailing_space_append_blank (x ws : string) :
  blank ws = true -> erase_trailing_space (x +++ ws) = erase_trailing_space x.
Proof.
  intro H. induction x as [|c x IH]; cbn.
  - apply erase_trailing_space_blank, H.
  - now rewrite IH.
Qed.

Lemma erase_trailing_space_head (c : ascii) (r : string) :
  isspace c = false -> exists r', erase_trailing_space (String c r) = String c r'.
Proof.
  intro H. cbn. rewrite H.
  destruct (erase_trailing_space r); eexists; reflexivity.
Qed.

Lemma erase_leading_space_all_blank (ws : string) :
  blank ws = true -> erase_leading_space ws = EmptyString.
Proof.
  induction ws as [|c ws IH]; cbn; [reflexivity|]. intro H.
  apply andb_prop in H. destruct H as [Hc Hr]. rewrite Hc. apply IH, Hr.
Qed.

Lemma is_empty_append (a b : string) : a <> EmptyString -> is_empty (a +++ b) = false.
Proof. destruct a; [contradiction|reflexivity]. Qed.

(** X6: The value [string_unit_to_numeric] returns fits a [uint64_t]: the
    product it computes never wraps around. *)
Theorem string_unit_to_numeric_fits (unit : string) (n : Z) :
  string_unit_to_numeric unit = Ok n -> 0 <= n <= 2 ^ 64 - 1.
Proof.
  unfold string_unit_to_numeric.
  destruct (is_empty (erase_trailing_space (erase_leading_space unit))); [discriminate|].
  set (s := lowercase (erase_trailing_space (erase_leading_space unit))).
  destruct (is_empty (leading_digits s)); [discriminate|].
  destruct (stoull (leading_digits s)) as [number|e] eqn:Es; cbn [bind]; [|discriminate].
  apply stoull_range in Es.
  assert (Hm : forall multiplier, 1 <= multiplier ->
            (if (1 <? multiplier) && ((2 ^ 64 - 1) / multiplier <? number)
             then Throw (overflow_error
                           ("The value '" +++ unit
                              +++ "' results in an overflow and is too large to be represented."))
             else Ok (number * multiplier)) = Ok n ->
            0 <= n <= 2 ^ 64 - 1).
  { intros multiplier Hpos H.
    destruct (Z.ltb_spec 1 multiplier) as [H1|H1]; cbn [andb] in H.
    - destruct (Z.ltb_spec ((2 ^ 64 - 1) / multiplier) number) as [H2|H2];
        [discriminate|].
      apply Ok_inj in H. subst n.
      pose proof (Z.mul_div_le (2 ^ 64 - 1) multiplier ltac:(lia)) as Hd.
      split; [nia|]. apply Z.le_trans with (multiplier * ((2 ^ 64 - 1) / multiplier));
        [nia|exact Hd].
    - apply Ok_inj in H. subst n. assert (multiplier = 1) by lia. subst. lia. }
  destruct (find (after_digits s) multipliers) as [m|] eqn:Ef; cbn [bind].
  - apply find_multipliers in Ef. apply Hm. lia.
  - destruct (is_empty (after_digits s)); cbn [bind]; [|discriminate].
    apply Hm. lia.
Qed.

Lemma string_unit_to_numeric_fits_witness :
  string_unit_to_numeric "16383PB" = Throw (invalid_argument
    "Unknown storage unit 'pb' in input '16383PB'.") /\
  string_unit_to_numeric "16777215t" = Ok 18446742974197923840 /\
  0 <= 18446742974197923840 <= 2 ^ 64 - 1.
Proof.
  split; [reflexivity|]. split; [reflexivity|].
  apply (string_unit_to_numeric_fits "16777215t" 18446742974197923840). reflexivity.
Defined.

(** X7: On a run of digits followed by a unit of the table in any case, or by
    nothing, with white space allowed before and after,
    [string_unit_to_numeric] returns the number times the multiplier of
    the unit; it throws [out_of_range] when the number alone exceeds a
    [uint64_t] and [overflow_error] when only the product does. *)
Theorem string_unit_to_numeric_value (ws1 ds u ws2 : string) (m : Z) :
  blank ws1 = true -> blank ws2 = true ->
  all_digits ds = true -> ds <> EmptyString ->
  (u = EmptyString /\ m = 1) \/ find (lowercase u) multipliers = Some m ->
  let unit := ws1 +++ (ds +++ u) +++ ws2 in
  string_unit_to_numeric unit = scaled unit (digits_value ds 0) m.
Proof.
  intros Hw1 Hw2 Hd Hne Hu. cbn zeta.
  assert (Hlu : spaceless (lowercase u) = true /\ no_leading_digit (lowercase u) = true).
  { destruct Hu as [[-> _]|Hf]; [split; reflexivity|].
    apply find_multipliers in Hf. tauto. }
  destruct Hlu as (Hsp & Hnd). rewrite spaceless_lowercase in Hsp.
  assert (Hsdu : spaceless (ds +++ u) = true)
    by (rewrite spaceless_append, (spaceless_digits _ Hd), Hsp; reflexivity).
  assert (Hhead : erase_leading_space ((ds +++ u) +++ ws2) = (ds +++ u) +++ ws2).
  { destruct ds as [|c ds']; [contradiction|]. cbn [String.append].
    apply erase_leading_space_head.
    cbn [all_digits] in Hd. apply andb_prop in Hd. destruct Hd as [Hc _].
    destruct (tolower_classes c) as (_ & _ & _ & _ & Hx). now destruct (Hx Hc). }
  assert (Hds : is_empty ds = false) by (destruct ds; [contradiction|reflexivity]).
  unfold string_unit_to_numeric.
  rewrite erase_leading_space_blank by exact Hw1. rewrite Hhead.
  rewrite erase_trailing_space_append_blank by exact Hw2.
  rewrite (erase_trailing_space_spaceless _ Hsdu).
  rewrite (is_empty_append _ _ Hne).
  rewrite lowercase_append, (lowercase_digits _ Hd).
  destruct (leading_digits_append ds (lowercase u) Hd Hnd) as [-> ->].
  rewrite Hds, (stoull_digits _ Hd Hne). unfold scaled.
  destruct (Z.ltb_spec (2 ^ 64 - 1) (digits_value ds 0)); cbn [bind]; [reflexivity|].
  destruct Hu as [[-> ->]|Hf].
  - change (find (lowercase EmptyString) multipliers) with (@None Z).
    cbn [lowercase is_empty bind]. reflexivity.
  - rewrite Hf. cbn [bind]. reflexivity.
Qed.

Lemma string_unit_to_numeric_value_witness :
  string_unit_to_numeric " 2Gb " = Ok 2147483648.
Proof.
  apply (string_unit_to_numeric_value " " "2" "Gb" " " (1024 * 1024 * 1024));
    try reflexivity; [discriminate|right; reflexivity].
Defined.

(** X8: [string_unit_to_numeric] rejects, with [invalid_argument], an argument
    that is empty or all white space, and an argument whose first
    character after the leading white space is not a digit: a sign, a unit
    alone, a word. *)
Theorem string_unit_to_numeric_rejects (ws : string) :
  blank ws = true ->
  string_unit_to_numeric ws
  = Throw (invalid_argument "Input string for unit conversion cannot be empty.") /\
  forall c r,
    isspace c = false -> isdigit c = false ->
    string_unit_to_numeric (ws +++ String c r)
    = Throw (invalid_argument
               ("Input string '" +++ (ws +++ String c r)
                  +++ "' does not contain a numeric part.")).
Proof.
  intro Hw. split.
  - unfold string_unit_to_numeric. rewrite (erase_leading_space_all_blank _ Hw).
    reflexivity.
  - intros c r Hs Hd. unfold string_unit_to_numeric.
    rewrite erase_leading_space_blank by exact Hw.
    rewrite (erase_leading_space_head _ _ Hs).
    destruct (erase_trailing_space_head c r Hs) as (r' & ->).
    cbn [is_empty lowercase leading_digits].
    destruct (tolower_classes c) as (_ & -> & _). rewrite Hd. reflexivity.
Qed.

Lemma string_unit_to_numeric_rejects_witness :
  string_unit_to_numeric "  "
  = Throw (invalid_argument "Input string for unit conversion cannot be empty.") /\
  string_unit_to_numeric " -5mb"
  = Throw (invalid_argument "Input string ' -5mb' does not contain a numeric part.").
Proof.
  destruct (string_unit_to_numeric_rejects " " eq_refl) as [_ H2].
  split; [apply (string_unit_to_numeric_rejects "  "); reflexivity|].
  apply (H2 "-"%char "5mb"%string); reflexivity.
Defined.

(** *** is_supported_image *)

Lemma strip_period (e : string) :
  match e with
  | String "."%char r => r
  | _ => e
  end
  = if leading_period e then
      match e with String _ r => r | EmptyString => EmptyString end
    else e.
Proof.
  destruct e as [|c r]; [reflexivity|].
  destruct c as [[] [] [] [] [] [] [] []]; reflexivity.
Qed.

Lemma lowercase_eq_leading_period (e1 e2 : string) :
  lowercase e1 = lowercase e2 -> leading_period e1 = leading_period e2.
Proof.
  destruct e1 as [|c1 r1], e2 as [|c2 r2]; cbn; intro H; try discriminate H;
    [reflexivity|].
  injection H as Hc _.
  destruct (tolower_classes c1) as (_ & _ & <- & _).
  destruct (tolower_classes c2) as (_ & _ & <- & _). now rewrite Hc.
Qed.

(** X9: [is_supported_image] does not look at the case of the letters: two
    extensions that are equal once put in lower case get the same answer.
    A leading period is optional: an extension that does not start with
    one gets the answer it gets with one in front. *)
Theorem is_supported_image_case_and_period (e1 e2 : string) :
  (lowercase e1 = lowercase e2 -> is_supported_image e1 = is_supported_image e2) /\
  (leading_period e1 = false ->
   is_supported_image (String "."%char e1) = is_supported_image e1).
Proof.
  split.
  - intro H. unfold is_supported_image. rewrite !strip_period.
    rewrite (lowercase_eq_leading_period _ _ H).
    destruct (leading_period e2); [|now rewrite H].
    destruct e1 as [|c1 r1], e2 as [|c2 r2]; cbn in H; try discriminate H;
      [reflexivity|].
    injection H as _ Hr. now rewrite Hr.
  - intro H. unfold is_supported_image. rewrite (strip_period e1), H. reflexivity.
Qed.

Lemma is_supported_image_case_and_period_witness :
  is_supported_image ".JPG" = is_supported_image ".jpg" /\
  is_supported_image ".webp" = is_supported_image "webp".
Proof.
  destruct (is_supported_image_case_and_period ".JPG" ".jpg") as [H1 _].
  destruct (is_supported_image_case_and_period "webp" ".jpg") as [_ H2].
  split; [apply H1; reflexivity|apply H2; reflexivity].
Defined.

End UnitFacts.

(* ------------------------------------------------------------------ *)
(** ** More on the argument parser *)

Section OptionFacts.
Import Utils Text Options.
Local Open Scope Z_scope.

Lemma stoi_range (str : string) (v : Z) : stoi str = Ok v -> is_int v.
Proof.
  unfold stoi, is_int. destruct (scan_integer str) as [negative digits].
  destruct (is_empty digits); [discriminate|].
  set (x := if negative then - digits_value digits 0 else digits_value digits 0).
  destruct (Z.ltb_spec x (- 2 ^ 31)); cbn [orb]; [discriminate|].
  destruct (Z.ltb_spec (2 ^ 31 - 1) x); [discriminate|].
  intro Hv. apply Ok_inj in Hv. subst v. lia.
Qed.

Lemma options_loop_cons opt xoptarg rest result :
  options_loop ((opt, xoptarg) :: rest) result
  = match options_loop [(opt, xoptarg)] result with
    | Returned result' => options_loop rest result'
    | other => other
    end.
Proof.
  cbn [options_loop].
  destruct opt as [[] [] [] [] [] [] [] []]; try reflexivity;
    match goal with
    | |- context [match ?x with _ => _ end] => destruct x; reflexivity
    end.
Qed.

(** What one option does to the configuration when the loop goes on. *)
Lemma option_step opt xoptarg result result' :
  options_loop [(opt, xoptarg)] result = Returned result' ->
  (opt = "m"%char /\ result' = set_model_path xoptarg result) \/
  (opt = "c"%char /\ result' = set_classes_path xoptarg result) \/
  (opt = "k"%char /\ exists v, stoi xoptarg = Ok v /\ result' = set_top_k v result) \/
  (opt = "t"%char /\
   exists v, stoi xoptarg = Ok v /\ result' = set_threads (to_unsigned v) result) \/
  (opt = "T"%char /\ result' = set_enable_timing true result) \/
  (opt = "S"%char /\ result' = set_use_softmax true result) \/
  (opt = "F"%char /\
   exists v, string_unit_to_numeric xoptarg = Ok v /\ result' = set_max_filesize v result) \/
  (opt = "D"%char /\ result' = set_disable_extension_check true result).
Proof.
  cbn [options_loop].
  destruct opt as [[] [] [] [] [] [] [] []]; try discriminate;
    repeat match goal with
           | |- context [match ?x with _ => _ end] => destruct x eqn:?; try discriminate
           end;
    intro H; injection H as <-;
    repeat first [ solve [split; [reflexivity | eauto]]
                 | solve [left; split; [reflexivity | eauto]]
                 | right ].
Qed.

Lemma options_loop_invariant (P : configuration -> Prop) :
  (forall opt xoptarg result result',
      options_loop [(opt, xoptarg)] result = Returned result' -> P result -> P result') ->
  forall opts result result',
    options_loop opts result = Returned result' -> P result -> P result'.
Proof.
  intro Hstep. induction opts as [|[opt xoptarg] rest IH]; intros result result' H HP.
  - injection H as <-. exact HP.
  - rewrite options_loop_cons in H.
    destruct (options_loop [(opt, xoptarg)] result) as [r1| |e] eqn:E; try discriminate.
    eapply IH; [exact H|]. eapply Hstep; eassumption.
Qed.

Lemma default_configuration_value hw result :
  default_configuration hw = Ok result ->
  result = mk_configuration "" "" 5 (to_unsigned hw) false false 104857600 false [].
Proof.
  unfold default_configuration.
  change (string_unit_to_numeric "100mb") with (@Ok Z 104857600). cbn [bind].
  intro H. apply Ok_inj in H. now subst.
Qed.

(** X10: The numbers in a configuration [parse_arguments] returns fit the
    types of their fields: [top_k] is an [int] and [max_filesize] a
    [uint64_t], whatever the arguments of [-k] and [-F] were. *)
Theorem parse_arguments_numbers_fit
        (hardware_concurrency argc : Z) (opts : list (ascii * string))
        (operands : list string) (config : configuration) :
  parse_arguments hardware_concurrency argc opts operands = Returned config ->
  is_int (top_k config) /\ is_uint64 (max_filesize config).
Proof.
  unfold parse_arguments. destruct (argc =? 1); [discriminate|].
  destruct (default_configuration hardware_concurrency) as [result|e] eqn:Ed;
    [|discriminate].
  apply default_configuration_value in Ed.
  destruct (options_loop opts result) as [result'| |e] eqn:El; try discriminate.
  intro H. injection H as <-.
  assert (Hinv : is_int (top_k result') /\ is_uint64 (max_filesize result')).
  { apply (options_loop_invariant
             (fun r => is_int (top_k r) /\ is_uint64 (max_filesize r)))
      with (opts := opts) (result := result); [|exact El|].
    - intros opt xoptarg r r1 Hs [Hk Hf]. apply option_step in Hs.
      destruct Hs as [[_ ->] | [[_ ->] | [[_ (v & Hv & ->)] | [[_ (v & Hv & ->)]
                     | [[_ ->] | [[_ ->] | [[_ (v & Hv & ->)] | [_ ->]]]]]]]];
        cbn [top_k max_filesize set_model_path set_classes_path set_top_k set_threads
             set_enable_timing set_use_softmax set_max_filesize
             set_disable_extension_check];
        split; try assumption.
      + eapply stoi_range, Hv.
      + unfold is_uint64. eapply string_unit_to_numeric_fits, Hv.
    - subst result. cbn [top_k max_filesize]. unfold is_int, is_uint64. lia. }
  match goal with
  | |- context [if ?b then _ else _] => destruct b
  end; exact Hinv.
Qed.

Lemma parse_arguments_numbers_fit_witness :
  parse_arguments 8 7 [("k"%char, "-3"%string); ("F"%char, "2g"%string)] ["fox.png"%string]
  = Returned (mk_configuration "" "" (-3) 8 false false 2147483648 false ["fox.png"%string]) /\
  is_int (-3) /\ is_uint64 2147483648.
Proof.
  split; [reflexivity|].
  apply (parse_arguments_numbers_fit 8 7
           [("k"%char, "-3"%string); ("F"%char, "2g"%string)] ["fox.png"%string]
           (mk_configuration "" "" (-3) 8 false false 2147483648 false ["fox.png"%string])).
  reflexivity.
Defined.

Lemma options_loop_flags opts : forall result result',
  options_loop opts result = Returned result' ->
  image_files result' = image_files result /\
  enable_timing result' = enable_timing result || given "T" opts /\
  use_softmax result' = use_softmax result || given "S" opts /\
  disable_extension_check result'
  = disable_extension_check result || given "D" opts.
Proof.
  induction opts as [|[opt xoptarg] rest IH]; intros result result' H.
  - injection H as <-. cbn. now rewrite !orb_false_r.
  - rewrite options_loop_cons in H.
    destruct (options_loop [(opt, xoptarg)] result) as [r1| |e] eqn:E; try discriminate.
    destruct (IH _ _ H) as (Hi & Ht & Hs & Hd). rewrite Hi, Ht, Hs, Hd.
    unfold given. cbn [existsb fst]. apply option_step in E.
    destruct E as [[-> ->] | [[-> ->] | [[-> (v & Hv & ->)] | [[-> (v & Hv & ->)]
                  | [[-> ->] | [[-> ->] | [[-> (v & Hv & ->)] | [-> ->]]]]]]]];
      cbn; rewrite ?orb_true_r, ?orb_false_r, ?orb_true_l; auto.
Qed.

(** X11: In a configuration [parse_arguments] returns, the image files are the
    operands of the command line, in order, and each of the switches
    [-T], [-S] and [-D] is on exactly when the option was given, however
    often and wherever among the options. *)
Theorem parse_arguments_operands_and_switches
        (hardware_concurrency argc : Z) (opts : list (ascii * string))
        (operands : list string) (config : configuration) :
  parse_arguments hardware_concurrency argc opts operands = Returned config ->
  image_files config = operands /\
  enable_timing config = given "T" opts /\
  use_softmax config = given "S" opts /\
  disable_extension_check config = given "D" opts.
Proof.
  unfold parse_arguments. destruct (argc =? 1); [discriminate|].
  destruct (default_configuration hardware_concurrency) as [result|e] eqn:Ed;
    [|discriminate].
  apply default_configuration_value in Ed.
  destruct (options_loop opts result) as [result'| |e] eqn:El; try discriminate.
  intro H. injection H as <-.
  destruct (options_loop_flags _ _ _ El) as (Hi & Ht & Hs & Hd).
  subst result. cbn in Hi, Ht, Hs, Hd.
  match goal with
  | |- context [if ?b then _ else _] => destruct b
  end; cbn; rewrite Hi; auto.
Qed.

Lemma parse_arguments_operands_and_switches_witness :
  let opts := [("T"%char, ""%string); ("m"%char, "m.onnx"%string); ("T"%char, ""%string)] in
  let config := mk_configuration "m.onnx" "" 5 8 true false 104857600 false
                  ["a.png"%string; "b.png"%string] in
  parse_arguments 8 6 opts ["a.png"%string; "b.png"%string] = Returned config /\
  image_files config = ["a.png"%string; "b.png"%string] /\
  enable_timing config = given "T" opts /\
  use_softmax config = given "S" opts /\
  disable_extension_check config = given "D" opts.
Proof.
  cbn zeta. split; [reflexivity|].
  apply (parse_arguments_operands_and_switches 8 6
           [("T"%char, ""%string); ("m"%char, "m.onnx"%string); ("T"%char, ""%string)]
           ["a.png"%string; "b.png"%string]).
  reflexivity.
Defined.

Lemma options_loop_app pre : forall post result,
  options_loop (pre ++ post) result
  = match options_loop pre result with
    | Returned result' => options_loop post result'
    | other => other
    end.
Proof.
  induction pre as [|[opt xoptarg] pre IH]; intros post result; [reflexivity|].
  cbn [app]. rewrite (options_loop_cons opt xoptarg (pre ++ post)).
  rewrite (options_loop_cons opt xoptarg pre).
  destruct (options_loop [(opt, xoptarg)] result); [apply IH|reflexivity|reflexivity].
Qed.

(** X12: After options that parse, [-h], [-v] or [-a] makes [parse_arguments]
    exit and an option it does not know makes it throw, whatever comes
    after on the command line: later options are not looked at, be they
    wrong. *)
Theorem parse_arguments_stops_at_first_exit
        (hardware_concurrency argc : Z) (pre post : list (ascii * string))
        (opt : ascii) (xoptarg : string) (operands : list string)
        (config : configuration) :
  parse_arguments hardware_concurrency argc pre operands = Returned config ->
  (opt = "h"%char \/ opt = "v"%char \/ opt = "a"%char ->
   parse_arguments hardware_concurrency argc (pre ++ (opt, xoptarg) :: post) operands
   = Exited) /\
  (opt = "?"%char ->
   parse_arguments hardware_concurrency argc (pre ++ (opt, xoptarg) :: post) operands
   = Thrown (runtime_error "could not parse parameters, use --help for usage.")).
Proof.
  unfold parse_arguments. destruct (argc =? 1); [discriminate|].
  destruct (default_configuration hardware_concurrency) as [result|e]; [|discriminate].
  destruct (options_loop pre result) as [result'| |e] eqn:El; try discriminate.
  intros _. rewrite options_loop_app, El.
  split.
  - intros [ -> | [ -> | -> ] ]; reflexivity.
  - intros ->. reflexivity.
Qed.

Lemma parse_arguments_stops_at_first_exit_witness :
  parse_arguments 8 6 [("k"%char, "3"%string); ("h"%char, ""%string);
                       ("t"%char, "many"%string)] []
  = Exited.
Proof.
  apply (parse_arguments_stops_at_first_exit 8 6 [("k"%char, "3"%string)]
           [("t"%char, "many"%string)] "h" "" []
           (mk_configuration "" "" 3 8 false false 104857600 false [])).
  - reflexivity.
  - left. reflexivity.
Defined.

End OptionFacts.

(* ------------------------------------------------------------------ *)
(** ** Whole runs of the worker and of the printer *)

Section RunFacts.
Import TSQueue Yolo Utils Outcome.

Variables image score : Type.
Variable env : environment image score.
Variable c : configuration.

Lemma thread_classify_drained tid w d log :
  tsq_in w = ({| queue := []; done := d |}, log) ->
  thread_classify env c 1 tid w
  = ending d (set_tsq_in ({| queue := []; done := d |}, log ++ [last_pop d tid]) w).
Proof.
  intro Hq. cbn [thread_classify]. rewrite Hq. cbn [fst exec].
  destruct d; reflexivity.
Qed.

(** X13: The worker, alone on an input queue holding [items]: it pops every
    item in order, pushes the records of those that succeed onto the
    output queue in that order, writes the diagnostics of those that fail
    to [cerr] in that order, and then returns if the queue is closed and
    stays parked in [pop] if it is open. *)
Theorem thread_classify_run (tid : nat) (items : list string) :
  forall (w : world) (d : bool) (log : list record),
    tsq_in w = ({| queue := items; done := d |}, log) ->
    thread_classify env c (S (length items)) tid w
    = ending d
        (mk_world
           ({| queue := []; done := d |}, log ++ pops tid items ++ [last_pop d tid])
           (run (map (CPush tid) (records env c items)) (tsq_out w))
           (cin w) (cout w) (cerr w ++ diagnostics env c items)).
Proof.
  induction items as [|value rest IH]; intros w d log Hq.
  - rewrite (thread_classify_drained _ _ _ _ Hq). destruct w.
    cbn. now rewrite app_nil_r.
  - cbn [length records diagnostics pops map].
    destruct (classify env c value) as [result|e] eqn:Hc.
    + rewrite (thread_classify_ok image score env c (S (length rest)) tid w value rest
                 d log result Hq Hc).
      erewrite IH by reflexivity. cbn [tsq_out cin cout cerr map].
      rewrite run_cons, <- app_assoc. reflexivity.
    + rewrite (thread_classify_throw image score env c (S (length rest)) tid w value rest
                 d log e Hq Hc).
      erewrite IH by reflexivity. cbn [tsq_out cin cout cerr].
      rewrite <- !app_assoc. reflexivity.
Qed.

(** X14: A worker does not give up on an open queue: as long as nobody has
    closed the input queue, no amount of fuel makes [thread_classify]
    return; it is parked or still busy. *)
Theorem thread_classify_waits_while_open (fuel : nat) (tid : nat) :
  forall (w w' : world),
    done (fst (tsq_in w)) = false ->
    thread_classify env c fuel tid w <> Finished w'.
Proof.
  induction fuel as [|fuel IH]; intros w w' Hd; cbn [thread_classify]; [discriminate|].
  destruct w as [[[items d] log] out stdin o e]. cbn [tsq_in fst done] in *. subst d.
  destruct items as [|value rest].
  - cbv [pop wait_predicate queue done empty negb orb]. discriminate.
  - rewrite pop_cons. apply IH.
    unfold classify_body. cbn [exec set_tsq_in tsq_in tsq_out cin cout cerr].
    rewrite pop_cons. destruct (classify env c value); reflexivity.
Qed.

Lemma thread_print_tsq_value fuel tid w value rest d log :
  tsq_out w = ({| queue := value :: rest; done := d |}, log) ->
  thread_print_tsq (S fuel) tid w
  = thread_print_tsq fuel tid
      (mk_world (tsq_in w)
         ({| queue := rest; done := d |}, log ++ [RPopped tid (Some value)])
         (cin w) (cout w ++ [value +++ endl]) (cerr w)).
Proof.
  intro Hq. cbn [thread_print_tsq]. rewrite Hq. cbn [fst exec].
  rewrite pop_cons. reflexivity.
Qed.

(** X15: The printer, alone on an output queue holding [items]: it writes
    every item to [cout] followed by a newline, in queue order, touches
    nothing else, and then returns if the queue is closed and stays parked
    if it is open. *)
Theorem thread_print_tsq_run (tid : nat) (items : list string) :
  forall (w : world) (d : bool) (log : list record),
    tsq_out w = ({| queue := items; done := d |}, log) ->
    thread_print_tsq (S (length items)) tid w
    = ending d
        (mk_world (tsq_in w)
           ({| queue := []; done := d |}, log ++ pops tid items ++ [last_pop d tid])
           (cin w) (cout w ++ map (fun v => v +++ endl) items) (cerr w)).
Proof.
  induction items as [|value rest IH]; intros w d log Hq.
  - cbn [thread_print_tsq length]. rewrite Hq. cbn [fst exec]. destruct w.
    destruct d; cbn; now rewrite app_nil_r.
  - cbn [length]. rewrite (thread_print_tsq_value _ _ _ _ _ _ _ Hq).
    erewrite IH by reflexivity. cbn [tsq_in tsq_out cin cout cerr pops map].
    rewrite <- !app_assoc. reflexivity.
Qed.

(** *** The format of a record *)

Lemma format_predictions_concat (cls : list (prediction score)) :
  forall result,
    format_predictions env cls result
    = result +++ String.concat ", " (map (show env) cls).
Proof.
  induction cls as [|it rest IH]; intro result.
  - cbn. now rewrite append_empty_r.
  - cbn [format_predictions map]. rewrite IH.
    destruct rest as [|it' rest'].
    + cbn [map String.concat]. unfold show. rewrite append_empty_r. reflexivity.
    + cbn [map String.concat]. unfold show. rewrite ?append_assoc. reflexivity.
Qed.

(** X16: When the processing of [path] succeeds, the record pushed is the path,
    then the elapsed milliseconds if timing is enabled, then, separated by
    commas, the predictions the classifier returned for the decoded image,
    each as name, blank, confidence; and the file was a regular one,
    neither empty nor larger than [max_filesize]. *)
Theorem classify_record (path result : string) :
  classify env c path = Ok result ->
  exists (sz : Z) (img : image) (cls : list (prediction score)),
    is_regular_file env path = Ok true /\
    file_size env path = Ok sz /\ sz <> 0%Z /\ (sz <= max_filesize c)%Z /\
    imread env path = Ok img /\ image_empty env img = false /\
    predict env img (to_size_t (top_k c)) = Ok cls /\
    result = record_line env c path cls.
Proof.
  unfold classify.
  destruct (is_regular_file env path) as [[|]|e] eqn:Hr; cbn [bind negb]; try discriminate.
  destruct (file_size env path) as [sz|e] eqn:Hs; cbn [bind]; [|discriminate].
  destruct (Z.eqb_spec sz 0) as [|Hz]; [discriminate|].
  destruct (Z.ltb_spec (max_filesize c) sz) as [|Hm]; [discriminate|].
  destruct (imread env path) as [img|e] eqn:Hi; cbn [bind]; [|discriminate].
  destruct (image_empty env img) eqn:He; [discriminate|].
  destruct (predict env img (to_size_t (top_k c))) as [cls|e] eqn:Hp; cbn [bind];
    [|discriminate].
  intro H. apply Ok_inj in H. subst result.
  exists sz, img, cls. repeat split; try assumption.
  rewrite format_predictions_concat. unfold record_line.
  destruct (enable_timing c); destruct (top_k c =? 0)%Z;
    rewrite ?append_assoc, ?append_empty_r; reflexivity.
Qed.

End RunFacts.

Section RunWitnesses.
Import TSQueue Yolo Utils Outcome Bench.

Lemma thread_classify_run_witness :
  thread_classify bench_env bench_config 4 3
    (mk_world ({| queue := ["b.png"; "a.png"; "empty.png"]%string; done := false |}, [])
       (fresh, []) [] [] [])
  = Parked
      (mk_world
         ({| queue := []; done := false |},
          [RPopped 3 (Some "b.png"%string); RPopped 3 (Some "a.png"%string);
           RPopped 3 (Some "empty.png"%string); RParked 3])
         ({| queue := ["a.png, cat 900"%string]; done := false |},
          [RPushed 3 "a.png, cat 900"%string])
         [] []
         [diagnostic "b.png" (other_exception "inference failed");
          diagnostic "empty.png" (length_error "File is empty.")]).
Proof.
  apply (thread_classify_run string Z bench_env bench_config 3
           ["b.png"; "a.png"; "empty.png"]%string
           (mk_world ({| queue := ["b.png"; "a.png"; "empty.png"]%string; done := false |}, [])
              (fresh, []) [] [] []) false []).
  reflexivity.
Defined.

Lemma thread_classify_waits_while_open_witness :
  thread_classify bench_env bench_config 9 3
    (mk_world ({| queue := ["a.png"%string]; done := false |}, []) (fresh, []) [] [] [])
  <> Finished (mk_world (fresh, []) (fresh, []) [] [] []).
Proof.
  apply (thread_classify_waits_while_open string Z bench_env bench_config 9 3).
  reflexivity.
Defined.

Lemma thread_print_tsq_run_witness :
  thread_print_tsq 3 1
    (mk_world (fresh, []) ({| queue := ["x"; "y"]%string; done := true |}, []) [] [] [])
  = Finished
      (mk_world (fresh, [])
         ({| queue := []; done := true |},
          [RPopped 1 (Some "x"%string); RPopped 1 (Some "y"%string); RPopped 1 None])
         [] ["x" +++ endl; "y" +++ endl] []).
Proof.
  apply (thread_print_tsq_run 1 ["x"; "y"]%string
           (mk_world (fresh, []) ({| queue := ["x"; "y"]%string; done := true |}, [])
              [] [] []) true []).
  reflexivity.
Defined.

Lemma classify_record_witness :
  exists (sz : Z) (img : string) (cls : list (prediction Z)),
    is_regular_file bench_env "a.png" = Ok true /\
    file_size bench_env "a.png" = Ok sz /\ sz <> 0%Z /\
    (sz <= max_filesize bench_config)%Z /\
    imread bench_env "a.png" = Ok img /\ image_empty bench_env img = false /\
    predict bench_env img (to_size_t (top_k bench_config)) = Ok cls /\
    "a.png, cat 900"%string = record_line bench_env bench_config "a.png" cls.
Proof.
  apply (classify_record string Z bench_env bench_config "a.png" "a.png, cat 900").
  reflexivity.
Defined.

End RunWitnesses.

(* ------------------------------------------------------------------ *)
(** ** The pipeline from start to end *)

Section LedgerFacts.
Import TSQueue Yolo Utils Main Ledger.

Variables image score : Type.
Variable env : environment image score.
Variable config : configuration.
Variable isatty : bool.
Variable stdin : list string.

Hypothesis threads_unsigned : is_unsigned (threads config).

(** Every step of a thread is one of the moves. *)
Lemma step_move who s s' :
  step env config isatty who s = Some s' -> move env config isatty s s'.
Proof.
  destruct who as [| |i|]; cbn [step].
  - unfold main_step. intro H.
    destruct (main s) as [|i| |files| | | |k| | |] eqn:Hpc.
    + injection H as <-. now apply m_start_output.
    + destruct (to_unsigned i <? threads config)%Z eqn:E; injection H as <-.
      * now apply m_spawn.
      * now apply m_spawned with (i := i).
    + destruct isatty eqn:E; injection H as <-.
      * now apply m_tty.
      * now apply m_pipe.
    + destruct files as [|f rest]; injection H as <-.
      * now apply m_pushed.
      * now apply m_push.
    + injection H as <-. now apply m_close_in.
    + injection H as <-. now apply m_start_input.
    + destruct (input_thread s) as [[| |]|] eqn:E; try discriminate.
      injection H as <-. now apply m_join_input.
    + destruct (nth_error (worker_threads s) k) as [[|value|]|] eqn:E; try discriminate;
        injection H as <-.
      * now apply m_join_worker.
      * now apply m_joined with (k := k).
    + injection H as <-. now apply m_close_out.
    + destruct (output_thread s) as [[| |]|] eqn:E; try discriminate.
      injection H as <-. now apply m_join_output.
    + discriminate.
  - unfold output_step. intro H.
    destruct (output_thread s) as [[|value|]|] eqn:Ho; try discriminate.
    + destruct (tsq_out (shared s)) as [[[|value rest] d] log] eqn:E.
      * destruct d; [|discriminate]. injection H as <-.
        now apply o_pop_end.
      * injection H as <-. now apply o_pop_value.
    + injection H as <-. now apply o_print.
  - unfold worker_step. intro H.
    destruct (nth_error (worker_threads s) i) as [[|value|]|] eqn:Hn; try discriminate.
    + destruct (tsq_in (shared s)) as [[[|value rest] d] log] eqn:E.
      * destruct d; [|discriminate]. injection H as <-.
        now apply w_pop_end.
      * injection H as <-. now apply w_pop_value.
    + injection H as <-. unfold classify_body.
      destruct (classify env config value) as [result|e] eqn:Hc.
      * now apply w_body_ok with (value := value).
      * now apply w_body_throw with (value := value).
  - unfold input_step. intro H.
    destruct (input_thread s) as [[| |]|] eqn:Hi; try discriminate.
    + destruct (cin (shared s)) as [|l rest] eqn:E; injection H as <-.
      * now apply i_eof.
      * rewrite get_line_body_spec.
        destruct (accepted env config l) eqn:Ea.
        -- now apply i_line_push.
        -- now apply i_line_skip with (l := l).
    + injection H as <-. now apply i_close.
Qed.

(** *** Bookkeeping lemmas *)

Lemma exec_push_fst t v st : fst (exec (CPush t v) st) = push v (fst st).
Proof. now destruct st. Qed.

Lemma exec_push_snd t v st : snd (exec (CPush t v) st) = snd st ++ [RPushed t v].
Proof. now destruct st. Qed.

Lemma exec_close_fst t st : fst (exec (CClose t) st) = close (fst st).
Proof. now destruct st. Qed.

Lemma exec_close_snd t st : snd (exec (CClose t) st) = snd st ++ [RClosed t].
Proof. now destruct st. Qed.

Ltac simp_state :=
  cbn [shared main output_thread worker_threads input_thread
       set_shared set_main set_output_thread set_worker_threads set_input_thread
       tsq_in tsq_out cin cout cerr set_tsq_in set_tsq_out set_cin set_cout set_cerr
       fst snd queue done push close] in *;
  rewrite ?exec_push_fst, ?exec_push_snd, ?exec_close_fst, ?exec_close_snd in *;
  cbn [fst snd queue done push close] in *.

Ltac known_state s :=
  repeat match goal with
         | H : main s = _ |- _ => rewrite H in *
         | H : input_thread s = _ |- _ => rewrite H in *
         | H : output_thread s = _ |- _ => rewrite H in *
         | H : tsq_in (shared s) = _ |- _ => rewrite H in *
         | H : tsq_out (shared s) = _ |- _ => rewrite H in *
         | H : cin (shared s) = _ |- _ => rewrite H in *
         | H : _ /\ _ |- _ => destruct H
         end.

Lemma control_step s s' :
  move env config isatty s s' -> control isatty s -> control isatty s'.
Proof.
  intros Hm (Hmode & Hin & Hcin & Hout & Hret).
  unfold control, mode, in_closed in *.
  destruct Hm; simp_state; known_state s; simp_state; cbn [produced] in *;
    destruct isatty; cbn [produced] in *; known_state s;
    try solve [ intuition (try congruence; try discriminate) ];
    destruct (main s); cbn [produced] in *; known_state s;
    solve [ intuition (try congruence; try discriminate) ].
Qed.

Lemma in_update {A : Type} (x y : A) : forall l i, In x (update i y l) -> x = y \/ In x l.
Proof.
  induction l as [|z l IH]; intros [|i] H; cbn [update] in H; try contradiction.
  - destruct H as [H|H]; [left; now symmetry|right; right; exact H].
  - destruct H as [H|H]; [right; left; exact H|].
    destruct (IH _ H) as [E|E]; [left; exact E|right; right; exact E].
Qed.

Lemma holding_app l1 l2 : holding (l1 ++ l2) = holding l1 + holding l2.
Proof.
  induction l1 as [|p l1 IH]; [reflexivity|].
  destruct p; cbn [app holding]; rewrite IH; reflexivity.
Qed.

Lemma holding_pop_value v : forall l i,
  nth_error l i = Some WPop -> holding (update i (WBody v) l) = S (holding l).
Proof.
  induction l as [|p l IH]; intros [|i] H; cbn [nth_error] in H; try discriminate.
  - injection H as ->. reflexivity.
  - cbn [update]. destruct p; cbn [holding]; rewrite (IH _ H); reflexivity.
Qed.

Lemma holding_pop_end : forall l i,
  nth_error l i = Some WPop -> holding (update i WReturned l) = holding l.
Proof.
  induction l as [|p l IH]; intros [|i] H; cbn [nth_error] in H; try discriminate.
  - injection H as ->. reflexivity.
  - cbn [update]. destruct p; cbn [holding]; rewrite (IH _ H); reflexivity.
Qed.

Lemma holding_body v : forall l i,
  nth_error l i = Some (WBody v) -> S (holding (update i WPop l)) = holding l.
Proof.
  induction l as [|p l IH]; intros [|i] H; cbn [nth_error] in H; try discriminate.
  - injection H as ->. reflexivity.
  - cbn [update]. destruct p; cbn [holding]; rewrite <- (IH _ H); reflexivity.
Qed.

Lemma holding_all_returned l : all_returned l -> holding l = 0.
Proof.
  induction 1 as [|p l Hp _ IH]; [reflexivity|]. subst p. exact IH.
Qed.

(** A worker that holds a value finds the output queue open. *)
Lemma invariant_body_open s i v :
  invariant config s -> nth_error (worker_threads s) i = Some (WBody v) ->
  done (fst (tsq_out (shared s))) = false.
Proof.
  intros (Hd & Hs & Ha) Hn. unfold out_done in Hd. rewrite Hd.
  destruct (main s); cbn [closed_at joined] in *; try reflexivity;
    rewrite firstn_all in Ha; unfold all_returned in Ha; rewrite Forall_forall in Ha;
    apply nth_error_In in Hn; apply Ha in Hn; discriminate.
Qed.

Lemma drained_step s s' :
  move env config isatty s s' -> invariant config s -> control isatty s ->
  drained s -> drained s'.
Proof.
  intros Hm Hinv (Hmode & Hin & _) (Hw & Ho).
  unfold drained, mode, in_closed in *.
  destruct Hm; simp_state; known_state s; simp_state;
    try solve [ intuition (try congruence; try discriminate) ].
  - (* a worker is spawned *)
    split; [|exact Ho]. intro Hi. apply in_app_or in Hi.
    destruct Hi as [Hi|[Hi|[]]]; [auto|discriminate].
  - (* main pushes a file *)
    split; [|exact Ho]. intro Hi. apply Hw in Hi. rewrite Hi in Hin.
    cbn in Hin. destruct isatty; discriminate.
  - (* main closes the input queue *)
    split; [|exact Ho]. intro Hi. rewrite (Hw Hi). reflexivity.
  - (* main closes the output queue *)
    split; [exact Hw|]. intro Hp. rewrite (Ho Hp). reflexivity.
  - (* a worker pops a value *)
    split; [|exact Ho]. intro Hi. apply in_update in Hi.
    destruct Hi as [Hi|Hi]; [discriminate|]. apply Hw in Hi. discriminate.
  - (* a worker pushes a record *)
    split.
    + intro Hi. apply in_update in Hi. destruct Hi as [Hi|Hi]; [discriminate|auto].
    + intro Hp. apply Ho in Hp.
      match goal with
      | Hn : nth_error _ _ = Some (WBody _) |- _ =>
          pose proof (invariant_body_open _ _ _ Hinv Hn) as Hopen
      end.
      rewrite Hp in Hopen. discriminate.
  - (* a worker reports a failure *)
    split; [|exact Ho]. intro Hi. apply in_update in Hi.
    destruct Hi as [Hi|Hi]; [discriminate|auto].
  - (* the input thread pushes a line *)
    split; [|exact Ho]. intro Hi. apply Hw in Hi. rewrite Hi in Hin.
    cbn in Hin. destruct isatty; [|discriminate].
    destruct (main s); cbn in *; intuition (try congruence; try discriminate).
  - (* the input thread closes the input queue *)
    split; [|exact Ho]. intro Hi. rewrite (Hw Hi). reflexivity.
Qed.

Lemma conserved_pop t v rest d log :
  conserved ({| queue := v :: rest; done := d |}, log) ->
  conserved ({| queue := rest; done := d |}, log ++ [RPopped t (Some v)]).
Proof. intro H. exact (exec_conserved (CPop t) _ H). Qed.

Lemma conserved_pop_end t log :
  conserved ({| queue := []; done := true |}, log) ->
  conserved ({| queue := []; done := true |}, log ++ [RPopped t None]).
Proof. intro H. exact (exec_conserved (CPop t) _ H). Qed.

Ltac books_tac :=
  repeat split;
  auto using exec_conserved, conserved_pop, conserved_pop_end;
  try congruence; try lia;
  try (rewrite <- app_assoc; cbn [app]; congruence).

Ltac known_mode :=
  repeat match goal with
         | H : isatty = _ |- _ => rewrite H in *; clear H
         | H : accepted _ _ _ = _ |- _ => rewrite H in *; clear H
         end.

Lemma books_step s s' :
  move env config isatty s s' -> control isatty s ->
  books env config isatty stdin s -> books env config isatty stdin s'.
Proof.
  intros Hm (Hmode & _ & _ & Hout & _) (Hci & Hco & Hp & Hcount & Hprint).
  unfold books, mode, pending, printing in *.
  destruct Hm; simp_state; known_state s; simp_state;
    try (rewrite (proj2 Hout eq_refl) in * );
    try erewrite holding_pop_value by eassumption;
    try erewrite holding_pop_end by eassumption;
    try match goal with
        | Hn : nth_error _ _ = Some (WBody _) |- _ =>
            pose proof (holding_body _ _ _ Hn)
        end;
    rewrite ?pushed_app, ?returned_app, ?length_app, ?map_app, ?holding_app in *;
    cbn [pushed returned length map holding app filter] in *;
    known_mode;
    rewrite ?app_nil_r, ?Nat.add_0_r in *;
    try solve [ books_tac ];
    (destruct isatty;
     [ exfalso; destruct (main s); cbn in Hmode; intuition (try congruence; try discriminate)
     | solve [ books_tac ] ]).
Qed.

Lemma orderly_app_one log r :
  orderly (log ++ [r])
  = orderly log && (negb (is_push r) || negb (existsb is_close log)).
Proof.
  induction log as [|x log IH]; cbn [app orderly existsb].
  - destruct (is_close r), (is_push r); reflexivity.
  - rewrite IH, existsb_app. cbn [existsb].
    destruct (is_close x), (is_push r), (existsb is_push log), (orderly log),
      (existsb is_close log); reflexivity.
Qed.

Lemma respected_push t v st :
  respected st -> done (fst st) = false -> respected (exec (CPush t v) st).
Proof.
  destruct st as [q log]. unfold respected. cbn [exec fst snd push done].
  intros [Hc Ho] Hd. rewrite existsb_app, orderly_app_one, Ho, Hc, Hd. split; reflexivity.
Qed.

Lemma respected_close t st : respected st -> respected (exec (CClose t) st).
Proof.
  destruct st as [q log]. unfold respected. cbn [exec fst snd close done].
  intros [Hc Ho]. rewrite existsb_app, orderly_app_one, Ho. cbn.
  split; [apply orb_true_r|reflexivity].
Qed.

Lemma respected_pop t v q q' log :
  done q' = done q -> respected (q, log) -> respected (q', log ++ [RPopped t v]).
Proof.
  unfold respected. cbn [fst snd]. intros Hd [Hc Ho].
  rewrite existsb_app, orderly_app_one, Ho, Hc, Hd. cbn.
  split; [apply orb_false_r|reflexivity].
Qed.

Lemma contract_step s s' :
  move env config isatty s s' -> invariant config s -> control isatty s ->
  contract s -> contract s'.
Proof.
  intros Hm Hinv (Hmode & Hin & _) (Hri & Hro).
  unfold contract, mode, in_closed in *.
  destruct Hm; simp_state; known_state s; simp_state;
    try solve [ split; auto using respected_close ];
    try solve [ split; [|assumption]; eapply respected_pop; [|eassumption]; reflexivity ];
    try solve [ split; [assumption|]; eapply respected_pop; [|eassumption]; reflexivity ].
  - (* main pushes a file *)
    split; [|assumption]. apply respected_push; [assumption|].
    rewrite Hin. cbn. now destruct isatty.
  - (* a worker pushes a record *)
    split; [assumption|]. apply respected_push; [assumption|].
    eapply invariant_body_open; eassumption.
  - (* the input thread pushes a line *)
    split; [|assumption]. apply respected_push; [assumption|].
    rewrite Hin. destruct isatty; [|reflexivity].
    destruct (main s); cbn in *; intuition (try congruence; try discriminate).
Qed.

(** *** The ledger is kept *)

Lemma ledger_step who s s' :
  step env config isatty who s = Some s' ->
  ledger env config isatty stdin s -> ledger env config isatty stdin s'.
Proof.
  intros Hstep (Hinv & Hc & Hd & Hb & Hk).
  pose proof (step_move _ _ _ Hstep) as Hm.
  split; [|split; [|split; [|split]]].
  - eapply step_invariant; eassumption.
  - apply (control_step _ _ Hm Hc).
  - apply (drained_step _ _ Hm Hinv Hc Hd).
  - apply (books_step _ _ Hm Hc Hb).
  - apply (contract_step _ _ Hm Hinv Hc Hk).
Qed.

Lemma ledger_initial : ledger env config isatty stdin (initial stdin).
Proof.
  split; [|split; [|split; [|split]]].
  - apply initial_invariant.
  - unfold control, mode, in_closed. cbn.
    repeat split; try (intro H; try discriminate H); try reflexivity.
    + now destruct isatty.
    + destruct H as [H|H]; discriminate H.
  - unfold drained. cbn. split; intro H; [contradiction|discriminate].
  - unfold books, conserved, pending, items, printing. cbn. repeat split.
  - unfold contract, respected. cbn. repeat split.
Qed.

Lemma ledger_run sched : forall s,
  ledger env config isatty stdin s ->
  ledger env config isatty stdin (run_system env config isatty sched s).
Proof.
  induction sched as [|who sched IH]; intros s H; [exact H|].
  cbn [run_system fold_left]. apply IH. unfold turn.
  destruct (step env config isatty who s) as [s'|] eqn:E; [|exact H].
  eapply ledger_step; eassumption.
Qed.

(** *** What the ledger gives *)

Lemma pop_closed_not_waiting q : done q = true -> pop q <> Waiting.
Proof.
  destruct q as [items d]. cbn [done]. intros ->.
  destruct items; [rewrite pop_closed_empty|rewrite pop_cons]; discriminate.
Qed.

Lemma worker_step_closed i s p :
  nth_error (worker_threads s) i = Some p -> p <> WReturned ->
  done (fst (tsq_in (shared s))) = true ->
  worker_step env config i s <> None.
Proof.
  intros Hn Hp Hd. unfold worker_step. rewrite Hn.
  destruct p as [|value|]; [|discriminate|contradiction].
  pose proof (pop_closed_not_waiting _ Hd) as Hw.
  destruct (pop (fst (tsq_in (shared s)))) as [|[v|] q']; [contradiction| |]; discriminate.
Qed.

(** X17: The pipeline cannot get stuck: in every state it can reach, under any
    schedule and on any input, either [main] has returned or some thread
    can take a step.  When [main] has returned, every thread it started
    has returned: the workers, the output thread and, when there is one,
    the input thread. *)
Theorem pipeline_never_deadlocks (sched : list thread) :
  let s := run_system env config isatty sched (initial stdin) in
  (main s <> AtReturn -> exists who, step env config isatty who s <> None) /\
  (main s = AtReturn ->
   all_returned (worker_threads s) /\
   output_thread s = Some PReturned /\
   (input_thread s = None \/ input_thread s = Some RReturned)).
Proof.
  cbn zeta.
  destruct (ledger_run sched _ ledger_initial)
    as ((Hdone & Hsp & Hall) & (Hmode & Hin & _ & Hout & Hret) & _).
  set (s := run_system env config isatty sched (initial stdin)) in *.
  unfold mode, in_closed, out_done in *. split.
  - intro Hnr.
    destruct (main s) as [|i| |files| | | |k| | |] eqn:Hpc; cbn [closed_at produced] in *;
      try (exists TMain; cbn [step]; unfold main_step; rewrite Hpc;
           solve [ discriminate
                 | destruct (to_unsigned i <? threads config)%Z; discriminate
                 | destruct isatty; discriminate
                 | destruct files; discriminate ]).
    + (* waiting for the input thread *)
      destruct Hmode as [_ Hi].
      destruct (input_thread s) as [[| |]|] eqn:Ei; [| | |contradiction].
      * exists TInput. cbn [step]. unfold input_step. rewrite Ei.
        destruct (cin (shared s)); discriminate.
      * exists TInput. cbn [step]. unfold input_step. rewrite Ei. discriminate.
      * exists TMain. cbn [step]. unfold main_step. rewrite Hpc, Ei. discriminate.
    + (* waiting for worker k *)
      assert (Hclosed : done (fst (tsq_in (shared s))) = true).
      { rewrite Hin. destruct isatty; [reflexivity|now rewrite Hmode]. }
      destruct (nth_error (worker_threads s) k) as [p|] eqn:En.
      * destruct p as [|value|];
          [exists (TWorker k); cbn [step];
           apply (worker_step_closed _ _ _ En); [discriminate|exact Hclosed]
          |exists (TWorker k); cbn [step];
           apply (worker_step_closed _ _ _ En); [discriminate|exact Hclosed]
          |exists TMain; cbn [step]; unfold main_step; rewrite Hpc, En; discriminate].
      * exists TMain. cbn [step]. unfold main_step. rewrite Hpc, En. discriminate.
    + (* waiting for the output thread *)
      destruct (output_thread s) as [[|value|]|] eqn:Eo.
      * exists TOutput. cbn [step]. unfold output_step. rewrite Eo.
        pose proof (pop_closed_not_waiting _ Hdone) as Hw.
        destruct (pop (fst (tsq_out (shared s)))) as [|[v|] q'];
          [contradiction| |]; discriminate.
      * exists TOutput. cbn [step]. unfold output_step. rewrite Eo. discriminate.
      * exists TMain. cbn [step]. unfold main_step. rewrite Hpc, Eo. discriminate.
      * destruct Hout as [Hout _]. specialize (Hout eq_refl). discriminate.
    + contradiction.
  - intro Hpc. rewrite Hpc in *. cbn [joined] in Hall. rewrite firstn_all in Hall.
    split; [exact Hall|]. split; [now apply Hret|].
    destruct isatty; [left|right]; exact Hmode.
Qed.

(** X18: When [main] returns from a run with at least one worker, every work
    item (the operands of the command line, or the accepted lines of the
    input) has been pushed onto the input queue and popped from it by a
    worker exactly once, in order; both queues are empty; every record
    pushed onto the output queue has been printed as one line, in the
    order of the pushes; and each item has given one printed record or
    one diagnostic line. *)
Theorem pipeline_accounts_for_every_item (sched : list thread) :
  let s := run_system env config isatty sched (initial stdin) in
  main s = AtReturn ->
  (1 <= threads config)%Z ->
  pushed (snd (tsq_in (shared s))) = items env config isatty stdin /\
  returned (snd (tsq_in (shared s))) = items env config isatty stdin /\
  queue (fst (tsq_in (shared s))) = [] /\
  queue (fst (tsq_out (shared s))) = [] /\
  cout (shared s) = map line (pushed (snd (tsq_out (shared s)))) /\
  (length (cout (shared s)) + length (cerr (shared s))
   = length (items env config isatty stdin))%nat.
Proof.
  cbn zeta. intros Hpc Hthreads.
  destruct (ledger_run sched _ ledger_initial)
    as ((Hdone & Hsp & Hall) & (Hmode & Hin & Hcin & Hout & Hret) & (Hw & Ho)
        & (Hci & Hco & Hp & Hcount & Hprint) & _).
  set (s := run_system env config isatty sched (initial stdin)) in *.
  unfold mode, pending, printing, conserved in *. rewrite Hpc in *.
  cbn [spawned joined] in *. rewrite firstn_all in Hall.
  specialize (Hret eq_refl). rewrite Hret in *.
  assert (Hsome : In WReturned (worker_threads s)).
  { destruct (worker_threads s) as [|p l]; [cbn in Hsp; lia|].
    inversion Hall; subst. now left. }
  specialize (Hw Hsome). specialize (Ho eq_refl).
  rewrite Hw in Hci. rewrite Ho in Hco. cbn [queue] in Hci, Hco.
  rewrite app_nil_r in Hci, Hco.
  assert (Hpend : (if isatty then [] else filter (accepted env config) (cin (shared s)))
                  = @nil string).
  { destruct isatty; [reflexivity|]. rewrite Hcin by (right; exact Hmode). reflexivity. }
  rewrite Hpend, app_nil_r in Hp.
  rewrite (holding_all_returned _ Hall), Nat.add_0_r in Hcount.
  cbn [map] in Hprint. rewrite app_nil_r in Hprint.
  rewrite Hw, Ho. cbn [queue].
  repeat split.
  - exact Hp.
  - now rewrite Hci.
  - now rewrite <- Hprint, Hco.
  - rewrite <- Hprint, length_map, Hco, Hcount, Hci, Hp. reflexivity.
Qed.

(** X19: At every moment of every run, the lines printed so far are the first
    of the records pushed onto the output queue so far, in the order of
    the pushes, and the items popped by the workers so far are the first
    of the work items, in order; records and diagnostics together never
    outnumber the items popped. *)
Theorem pipeline_keeps_its_books (sched : list thread) :
  let s := run_system env config isatty sched (initial stdin) in
  (exists later, map line (pushed (snd (tsq_out (shared s)))) = cout (shared s) ++ later) /\
  (exists later, items env config isatty stdin
                 = returned (snd (tsq_in (shared s))) ++ later) /\
  (length (pushed (snd (tsq_out (shared s)))) + length (cerr (shared s))
   <= length (returned (snd (tsq_in (shared s)))))%nat.
Proof.
  cbn zeta.
  destruct (ledger_run sched _ ledger_initial)
    as (_ & _ & _ & (Hci & Hco & Hp & Hcount & Hprint) & _).
  set (s := run_system env config isatty sched (initial stdin)) in *.
  unfold conserved in *. split; [|split].
  - rewrite <- Hco, map_app, Hprint, <- app_assoc. eexists. reflexivity.
  - rewrite <- Hp, <- Hci, <- app_assoc. eexists. reflexivity.
  - lia.
Qed.

(** X20: The program honours the contract of its queues: in no run is an item
    pushed onto a queue after that queue has been closed, and the closed
    flag of each queue is set exactly when a [close()] is in its log. *)
Theorem pipeline_never_pushes_after_close (sched : list thread) :
  let s := run_system env config isatty sched (initial stdin) in
  orderly (snd (tsq_in (shared s))) = true /\
  orderly (snd (tsq_out (shared s))) = true /\
  existsb is_close (snd (tsq_in (shared s))) = done (fst (tsq_in (shared s))) /\
  existsb is_close (snd (tsq_out (shared s))) = done (fst (tsq_out (shared s))).
Proof.
  cbn zeta.
  destruct (ledger_run sched _ ledger_initial) as (_ & _ & _ & _ & (Hi1 & Hi2) & (Ho1 & Ho2)).
  auto.
Qed.

End LedgerFacts.

Section LedgerWitnesses.
Import TSQueue Yolo Utils Main Ledger Bench.

Lemma bench_threads_unsigned : is_unsigned (threads bench_config).
Proof. unfold is_unsigned. cbn. lia. Defined.

Lemma pipeline_never_deadlocks_witness :
  let s := run_system bench_env bench_config true [TMain; TMain; TMain] (initial []) in
  main s <> AtReturn /\
  exists who, step bench_env bench_config true who s <> None.
Proof.
  cbn zeta. split; [discriminate|].
  apply (pipeline_never_deadlocks string Z bench_env bench_config true []
           bench_threads_unsigned [TMain; TMain; TMain]).
  discriminate.
Defined.

Lemma pipeline_accounts_for_every_item_witness :
  let s := run_system bench_env bench_config true bench_schedule (initial []) in
  main s = AtReturn /\
  (1 <= threads bench_config)%Z /\
  returned (snd (tsq_in (shared s))) = ["a.png"; "b.png"]%string /\
  cout (shared s) = [line "a.png, cat 900"] /\
  (length (cout (shared s)) + length (cerr (shared s)) = 2)%nat.
Proof.
  cbn zeta.
  assert (H1 : (1 <= threads bench_config)%Z) by (cbn; lia).
  split; [reflexivity|]. split; [exact H1|].
  destruct (pipeline_accounts_for_every_item string Z bench_env bench_config true []
              bench_threads_unsigned bench_schedule eq_refl H1)
    as (_ & Hr & _ & _ & Hc & Hn).
  split; [exact Hr|]. split; [exact Hc|exact Hn].
Defined.

Lemma pipeline_keeps_its_books_witness :
  let s := run_system bench_env bench_config true (firstn 12 bench_schedule) (initial []) in
  (length (pushed (snd (tsq_out (shared s)))) + length (cerr (shared s))
   <= length (returned (snd (tsq_in (shared s)))))%nat.
Proof.
  cbn zeta.
  apply (pipeline_keeps_its_books string Z bench_env bench_config true []
           bench_threads_unsigned (firstn 12 bench_schedule)).
Defined.

Lemma pipeline_never_pushes_after_close_witness :
  let s := run_system bench_env bench_config true bench_schedule (initial []) in
  orderly (snd (tsq_in (shared s))) = true /\
  orderly (snd (tsq_out (shared s))) = true.
Proof.
  cbn zeta.
  destruct (pipeline_never_pushes_after_close string Z bench_env bench_config true []
              bench_threads_unsigned bench_schedule) as (H1 & H2 & _).
  split; assumption.
Defined.

End LedgerWitnesses.

(* ------------------------------------------------------------------ *)
(** ** Wake-ups *)

Section MonitorFacts.
Import TSQueue Monitor.











(** Two consumers block; a push wakes the second, which takes the item; a
    close wakes the first, which gets the end of stream. *)
Example two_consumers :
  let m := run_monitor
             [PopEnter 1; PopEnter 2; PushLocked "a.png"; NotifyOne 1; PopResume 0;
              CloseLocked; NotifyAll; PopResume 0] idle in
  returns m = [(2, Some "a.png"%string); (1, None)] /\
  waiters m = [] /\ woken m = [].
Proof. repeat split. Qed.

End MonitorFacts.
